(** * go-feature-flag: the flag synchronisation engine and the relay-proxy keys

    A shallow embedding of the main file of package [ffclient] and of
    [cmd/relayproxy/config/config.go]: its API keys, its validation, the
    lookup of the configuration file and the array items read from the
    environment.  Line numbers in the comments are those of the embedded Go
    file.

    Conventions of the embedding
    - a Go [map[string]dto.DTO] is a [gmap string DTO]; a nil map and an empty
      map are both [∅] (ranging over either yields nothing);
    - a Go [map[string]interface{}] used as a set is a [gset string], wrapped
      in [option] where the code tests it against nil;
    - a nilable pointer or interface field is an [option];
    - [time.Duration] is a [Z] counting nanoseconds;
    - the goroutines of one refresh cycle are modelled by the order in which
      their results arrive on the channel (a list of source indices);
    - a Go run-time panic is the outcome [Panic]. *)

From Stdlib Require Import ZArith Lia.
From stdpp Require Import base option list gmap strings.

Local Open Scope Z_scope.

(** ** Errors *)

(** The Go [error] values that travel through package [ffclient]: the errors
    of the collaborators (kept as their message) and the three errors that
    [New] builds with [fmt.Errorf]. *)
Inductive error : Type :=
| errorString (msg : string)
| errInvalidPollingInterval (d : Z)
| errInitRetrievers (cause : error)
| errRetrieveFlags (cause : error).

(** Outcome of a Go call that may panic. *)
Inductive run (A : Type) : Type :=
| Done (a : A)
| Panic.
Arguments Done {A} a.
Arguments Panic {A}.

Definition run_bind {A B} (m : run A) (k : A → run B) : run B :=
  match m with
  | Done a => k a
  | Panic => Panic
  end.

Notation "x ←r m ; k" := (run_bind m (fun x => k))
  (at level 100, m at next level, right associativity, only parsing).

(** ** Package [retriever] as package [ffclient] uses it *)
Module retriever.

(** Modelled from the spec: the readiness status of a source, one of
    NotReady, Ready and Error; package [ffclient] names [RetrieverReady]. *)
Inductive Status : Type :=
| RetrieverNotReady
| RetrieverReady
| RetrieverError.

Definition Status_eqb (a b : Status) : bool :=
  match a, b with
  | RetrieverNotReady, RetrieverNotReady
  | RetrieverReady, RetrieverReady
  | RetrieverError, RetrieverError => true
  | _, _ => false
  end.

(** A retriever as one refresh cycle observes it.  [initializable] is
    [Some s] when the value also implements [InitializableRetriever] and
    its [Status()] answers [s]; [Retrieve] is what [Retrieve(ctx)] returns
    when it is called. *)
Record Retriever : Type := {
  initializable : option Status;
  Retrieve : error + list Byte.byte
}.

(** [retriever.Manager]: the ordered retrievers it was created with. *)
Record Manager : Type := { GetRetrievers : list Retriever }.

Definition NewManager (retrievers : list Retriever) : Manager :=
  {| GetRetrievers := retrievers |}.

End retriever.

(** ** Package [cache] as package [ffclient] uses it *)
Module cache.

(** The interface [cache.Manager], restricted to the operations that
    package [ffclient] calls.  [C] is the state of an implementation;
    [UpdateCache] also reads the clock, passed as [now]. *)
Class Manager (DTO C : Type) : Type := {
  New : C;
  UpdateCache : C → gmap string DTO → Z → C * option error;
  Close : C → C;
  GetLatestUpdateDate : C → Z
}.

End cache.

(** ** Package [ffclient] *)
Module ffclient.
Import retriever.

Section refresh.

(** [dto.DTO], the converted definition of one flag. *)
Context {DTO : Type}.

(** [cache.ConvertToFlagStruct(rawValue, format)]: the converted flags
    and the conversion error, both returned as Go returns them.  At line
    197 [cache] is the cache manager that the cycle was given, and this is
    its method: see [retrieveFlagsAndUpdateCache] for a nil manager. *)
Variable ConvertToFlagStruct :
  list Byte.byte → string → gmap string DTO * option error.

(** The local type [Results] of [retrieveFlagsAndUpdateCache]. *)
Record Results : Type := {
  Error : option error;
  Value : gmap string DTO;
  Index : nat
}.

(** Line 187: the retriever is initializable and its status is not
    [RetrieverReady]. *)
Definition notReady (r : Retriever) : bool :=
  match initializable r with
  | Some s => negb (Status_eqb s RetrieverReady)
  | None => false
  end.

(** Lines 183-199, the goroutine started for one retriever: the single
    result it sends on [resultsChan]. *)
Definition retrieverTask (r : Retriever) (format : string) (index : nat)
  : Results :=
  if notReady r then
    {| Error := None; Value := ∅; Index := index |}
  else
    match Retrieve r with
    | inl err => {| Error := Some err; Value := ∅; Index := index |}
    | inr rawValue =>
        let '(convertedFlag, err) := ConvertToFlagStruct rawValue format in
        {| Error := err; Value := convertedFlag; Index := index |}
    end.

(** Lines 181-200: one task per retriever, tagged with its index. *)
Definition launch (format : string) (retrievers : list Retriever)
  : list Results :=
  imap (λ index r, retrieverTask r format index) retrievers.

(** The indices of the sources whose [Retrieve] is invoked by a cycle:
    every task is started before any result is read, and a task calls
    [Retrieve] unless its retriever is not ready. *)
Definition retrieved (retrievers : list Retriever) : list nat :=
  omap (λ p : nat * Retriever, if notReady p.2 then None else Some p.1)
       (imap pair retrievers).

(** The results in the order in which the tasks deliver them; [sched]
    lists the source indices in completion order. *)
Definition arrivals (tasks : list Results) (sched : list nat)
  : list Results :=
  omap (λ i, tasks !! i) sched.

(** Lines 202-208: the receiving loop.  It stops at the first result that
    carries an error, otherwise stores the value in the slot of its
    index.  (Go would panic on an index out of range; [launch] only
    produces indices below the number of retrievers.) *)
Fixpoint collect (arrived : list Results)
    (retrieversResults : list (gmap string DTO))
  : error + list (gmap string DTO) :=
  match arrived with
  | [] => inr retrieversResults
  | v :: rest =>
      match Error v with
      | Some err => inl err
      | None => collect rest (<[Index v := Value v]> retrieversResults)
      end
  end.

(** Lines 213-215: the inner loop that copies one source's flags. *)
Definition mergeInto (newFlags flags : gmap string DTO)
  : gmap string DTO :=
  map_fold (λ flagName value acc, <[flagName := value]> acc) newFlags flags.

(** Lines 211-216: merge all the flags, slots in ascending index. *)
Definition mergeFlags (retrieversResults : list (gmap string DTO))
  : gmap string DTO :=
  foldl mergeInto ∅ retrieversResults.

(** Lines 160-216 of [retrieveFlagsAndUpdateCache]: everything before the
    cache is touched. *)
Definition fetchAndMerge (format : string) (retrievers : list Retriever)
    (sched : list nat) : error + gmap string DTO :=
  match collect (arrivals (launch format retrievers) sched)
                (replicate (length retrievers) ∅) with
  | inl err => inl err
  | inr retrieversResults => inr (mergeFlags retrieversResults)
  end.

(** A schedule is fair when every task completes exactly once. *)
Definition completes (retrievers : list Retriever) (sched : list nat)
  : Prop :=
  sched ≡ₚ seq 0 (length retrievers).

(** *** The orchestrator *)

(** The state of the [cache.Manager] implementation in use. *)
Context {C : Type} `{!cache.Manager DTO C}.

(** [time.Second], in nanoseconds. *)
Definition Second : Z := 1000000000.

(** [config.DataExporter]: [Exporter] is [None] for a nil exporter and
    otherwise holds the answer of its [IsBulk()]. *)
Record DataExporter : Type := {
  Exporter : option bool;
  FlushInterval : Z;
  MaxEventInMemory : Z
}.

(** [ffclient.Config], the fields that [New] and the refresh cycle read.
    (The notifiers, the logger, the context and the mutex play no part in
    what is proved below.) *)
Record Config : Type := {
  PollingInterval : Z;
  EnablePollingJitter : bool;
  Offline : bool;
  StartWithRetrieverError : bool;
  FileFormat : string;
  DataExporterConf : DataExporter;
  (** what [config.GetRetrievers()] returns *)
  Config_GetRetrievers : error + list Retriever
}.

Definition Config_setPollingInterval (config : Config) (d : Z) : Config :=
  {| PollingInterval := d;
     EnablePollingJitter := EnablePollingJitter config;
     Offline := Offline config;
     StartWithRetrieverError := StartWithRetrieverError config;
     FileFormat := FileFormat config;
     DataExporterConf := DataExporterConf config;
     Config_GetRetrievers := Config_GetRetrievers config |}.

(** Modelled from the spec: [Config.SetOffline] and [Config.IsOffline],
    which are declared in another file of the package; the offline flag is
    a boolean overlay that can be set at any time and read back. *)
Definition Config_SetOffline (config : Config) (control : bool) : Config :=
  {| PollingInterval := PollingInterval config;
     EnablePollingJitter := EnablePollingJitter config;
     Offline := control;
     StartWithRetrieverError := StartWithRetrieverError config;
     FileFormat := FileFormat config;
     DataExporterConf := DataExporterConf config;
     Config_GetRetrievers := Config_GetRetrievers config |}.

Definition Config_IsOffline (config : Config) : bool := Offline config.

(** [backgroundUpdater]: its two fields, nil in the zero value. *)
Record backgroundUpdater : Type := {
  ticker : option Z;
  updaterChan : option unit
}.

Definition backgroundUpdater_zero : backgroundUpdater :=
  {| ticker := None; updaterChan := None |}.

(** Modelled from the spec: [newBackgroundUpdater] creates the timer of
    the refresh loop, at the polling interval, and its stop signal. *)
Definition newBackgroundUpdater (pollingInterval : Z) (useJitter : bool)
  : backgroundUpdater :=
  {| ticker := Some pollingInterval; updaterChan := Some () |}.

(** The method [close] of [backgroundUpdater], declared in another file of
    the package: whatever it does to the two fields of its receiver. *)
Variable bgUpdater_close : backgroundUpdater → backgroundUpdater.

(** The method [Init] of [retriever.Manager]: the manager after
    initialisation and the error it reports. *)
Variable Manager_Init : Manager → Manager * option error.

(** [exporter.Scheduler], as [exporter.NewScheduler] is given it. *)
Record Scheduler : Type := {
  sched_flushInterval : Z;
  sched_maxEventInMemory : Z;
  sched_bulk : bool
}.

Definition NewScheduler (flushInterval maxEventInMemory : Z) (bulk : bool)
  : Scheduler :=
  {| sched_flushInterval := flushInterval;
     sched_maxEventInMemory := maxEventInMemory;
     sched_bulk := bulk |}.

(** The struct [GoFeatureFlag]. *)
Record GoFeatureFlag : Type := {
  cache : option C;
  config : Config;
  bgUpdater : backgroundUpdater;
  dataExporter : option Scheduler;
  retrieverManager : option Manager
}.

(** Line 197 is reached by the task of a retriever that is ready and whose
    [Retrieve] returned no error. *)
Definition reachesConversion (r : Retriever) : bool :=
  negb (notReady r)
  && match Retrieve r with
     | inr _ => true
     | inl _ => false
     end.

(** [retrieveFlagsAndUpdateCache]: lines 160-216 followed by lines
    218-223.  The result holds the cache after the call, the returned error,
    and the sources whose [Retrieve] was invoked.  [GetRetrievers] reads its
    receiver, so a nil manager panics.  [ConvertToFlagStruct] (line 197) and
    [UpdateCache] (line 218) are methods of the cache argument: on a nil
    cache the task that reaches the conversion panics, which ends the
    program, and so does the call of [UpdateCache]. *)
Definition retrieveFlagsAndUpdateCache (config : Config)
    (cache : option C) (retrieverManager : option Manager)
    (sched : list nat) (now : Z)
  : run (option C * option error * list nat) :=
  match retrieverManager with
  | None => Panic
  | Some rm =>
      let retrievers := GetRetrievers rm in
      match cache with
      | None =>
          if existsb reachesConversion retrievers then Panic
          else
            match fetchAndMerge (FileFormat config) retrievers sched with
            | inl err => Done (None, Some err, retrieved retrievers)
            | inr _ => Panic
            end
      | Some c =>
          match fetchAndMerge (FileFormat config) retrievers sched with
          | inl err => Done (Some c, Some err, retrieved retrievers)
          | inr newFlags =>
              let '(c', err) := cache.UpdateCache c newFlags now in
              Done (Some c', err, retrieved retrievers)
          end
      end
  end.

(** Lines 59-71: the switch on [config.PollingInterval]. *)
Definition New_pollingInterval (d : Z) : error + Z :=
  if d =? 0 then inr (60 * Second)
  else if d <? 0 then inl (errInvalidPollingInterval d)
  else if d <? Second then inr Second
  else inr d.

(** Lines 107-116: the data exporter of a new instance. *)
Definition New_dataExporter (conf : DataExporter) : option Scheduler :=
  match Exporter conf with
  | Some bulk =>
      Some (NewScheduler (FlushInterval conf) (MaxEventInMemory conf) bulk)
  | None => None
  end.

(** [New], lines 58-119.  [sched] and [now] are the completion order and
    the clock of the first refresh cycle.  The two daemons started with
    [go] run after [New] has returned and are not part of its result. *)
Definition New (config : Config) (sched : list nat) (now : Z)
  : run (option GoFeatureFlag * option error) :=
  match New_pollingInterval (PollingInterval config) with
  | inl err => Done (None, Some err)
  | inr interval =>
      let config := Config_setPollingInterval config interval in
      if Offline config then
        Done (Some {| cache := None; config := config;
                      bgUpdater := backgroundUpdater_zero;
                      dataExporter := None;
                      retrieverManager := None |}, None)
      else
        let bg := newBackgroundUpdater (PollingInterval config)
                                       (EnablePollingJitter config) in
        match Config_GetRetrievers config with
        | inl err => Done (None, Some err)
        | inr retrievers =>
            let '(rm, err) := Manager_Init (NewManager retrievers) in
            match err, StartWithRetrieverError config with
            | Some e, false => Done (None, Some (errInitRetrievers e))
            | _, _ =>
                r ←r retrieveFlagsAndUpdateCache
                       config (Some cache.New) (Some rm) sched now;
                match r.1.2, StartWithRetrieverError config with
                | Some e, false => Done (None, Some (errRetrieveFlags e))
                | _, _ =>
                    Done (Some {| cache := r.1.1; config := config;
                                  bgUpdater := bg;
                                  dataExporter :=
                                    New_dataExporter (DataExporterConf config);
                                  retrieverManager := Some rm |}, None)
                end
            end
        end
  end.

(** The teardown calls that [Close] issues to its components. *)
Inductive Call : Type :=
| CacheClose
| UpdaterClose
| ExporterClose
| ManagerShutdown.

(** Line 128: the guard of the background updater. *)
Definition updaterStarted (bg : backgroundUpdater) : bool :=
  match updaterChan bg, ticker bg with
  | Some _, Some _ => true
  | _, _ => false
  end.

(** The method [Close] of [GoFeatureFlag], lines 122-139, on a receiver
    that may be nil: the calls issued, in order, and the instance
    afterwards.  The
    cache is closed through its interface, the updater through
    [bgUpdater_close]; the handles themselves are never reassigned. *)
Definition Close (g : option GoFeatureFlag)
  : list Call * option GoFeatureFlag :=
  match g with
  | None => ([], None)
  | Some g =>
      let '(t1, cache') :=
        match cache g with
        | Some c => ([CacheClose], Some (cache.Close c))
        | None => ([], None)
        end in
      let '(t2, bg') :=
        if updaterStarted (bgUpdater g)
        then ([UpdaterClose], bgUpdater_close (bgUpdater g))
        else ([], bgUpdater g) in
      let t3 :=
        match dataExporter g with
        | Some _ => [ExporterClose]
        | None => []
        end in
      let t4 :=
        match retrieverManager g with
        | Some _ => [ManagerShutdown]
        | None => []
        end in
      (t1 ++ t2 ++ t3 ++ t4,
       Some {| cache := cache'; config := config g; bgUpdater := bg';
               dataExporter := dataExporter g;
               retrieverManager := retrieverManager g |})
  end.

(** [Close] itself only tests its handles against nil, which cannot
    panic; the teardown operations it calls belong to the components and
    are declared in other packages, and any of them may panic.  With
    [panics] telling whether the operation that a call names panics when
    [Close] reaches it, this is the outcome of [Close]: a panic when one
    of the calls it issues panics, and otherwise what [Close] does. *)
Definition Close_outcome (panics : Call → bool) (g : option GoFeatureFlag)
  : run (list Call * option GoFeatureFlag) :=
  if existsb panics (Close g).1 then Panic else Done (Close g).

(** The methods [SetOffline] and [IsOffline] of [GoFeatureFlag], lines
    250-257. *)
Definition SetOffline (g : GoFeatureFlag) (control : bool)
  : GoFeatureFlag :=
  {| cache := cache g; config := Config_SetOffline (config g) control;
     bgUpdater := bgUpdater g; dataExporter := dataExporter g;
     retrieverManager := retrieverManager g |}.

Definition IsOffline (g : GoFeatureFlag) : bool :=
  Config_IsOffline (config g).

(** The method [ForceRefresh] of [GoFeatureFlag], lines 237-247: the
    boolean returned, the instance afterwards and the sources that were
    contacted. *)
Definition ForceRefresh (g : GoFeatureFlag) (sched : list nat) (now : Z)
  : run (bool * GoFeatureFlag * list nat) :=
  if IsOffline g then Done (false, g, [])
  else
    r ←r retrieveFlagsAndUpdateCache
           (config g) (cache g) (retrieverManager g) sched now;
    let g' := {| cache := r.1.1; config := config g;
                 bgUpdater := bgUpdater g;
                 dataExporter := dataExporter g;
                 retrieverManager := retrieverManager g |} in
    match r.1.2 with
    | Some _ => Done (false, g', r.2)
    | None => Done (true, g', r.2)
    end.

(** The method [GetCacheRefreshDate] of [GoFeatureFlag], lines 227-232;
    the zero [time.Time] is 0. *)
Definition GetCacheRefreshDate (g : GoFeatureFlag) : run Z :=
  if Offline (config g) then Done 0
  else
    match cache g with
    | Some c => Done (cache.GetLatestUpdateDate c)
    | None => Panic
    end.

(** The package-level state: the default instance [ff] and whether
    [onceFF] has run. *)
Record Package : Type := {
  ff : option GoFeatureFlag;
  onceFF : bool
}.

(** The package-level [Close], lines 287-290. *)
Definition Package_Close (p : Package) : list Call * Package :=
  let '(calls, g) := Close (ff p) in
  (calls, {| ff := g; onceFF := false |}).

(** *** The rest of the package: the default instance and the daemon *)

(** [Init], lines 30-40.  [onceFF.Do] runs its function only the first
    time, and counts that run whether or not [New] succeeded; [ff] is
    assigned only when [New] returned no error. *)
Definition Init (p : Package) (config : Config) (sched : list nat) (now : Z)
  : run (option error * Package) :=
  if onceFF p then Done (None, p)
  else
    r ←r New config sched now;
    match r.2 with
    | None => Done (None, {| ff := r.1; onceFF := true |})
    | Some err => Done (Some err, {| ff := ff p; onceFF := true |})
    end.

(** The package-level [SetOffline], [IsOffline], [GetCacheRefreshDate] and
    [ForceRefresh], lines 265-284: each calls the method on [ff], and the
    method reads [g.config] at once, which panics on a nil [ff]. *)
Definition Package_SetOffline (p : Package) (control : bool) : run Package :=
  match ff p with
  | None => Panic
  | Some g => Done {| ff := Some (SetOffline g control); onceFF := onceFF p |}
  end.

Definition Package_IsOffline (p : Package) : run bool :=
  match ff p with
  | None => Panic
  | Some g => Done (IsOffline g)
  end.

Definition Package_GetCacheRefreshDate (p : Package) : run Z :=
  match ff p with
  | None => Panic
  | Some g => GetCacheRefreshDate g
  end.

Definition Package_ForceRefresh (p : Package) (sched : list nat) (now : Z)
  : run (bool * Package * list nat) :=
  match ff p with
  | None => Panic
  | Some g =>
      r ←r ForceRefresh g sched now;
      Done (r.1.1, {| ff := Some r.1.2; onceFF := onceFF p |}, r.2)
  end.

(** [GetPollingInterval], lines 260-262.  [Duration.Milliseconds] is the
    integer division of the nanoseconds by one million, truncated towards
    zero. *)
Definition GetPollingInterval (g : GoFeatureFlag) : Z :=
  PollingInterval (config g) ÷ 1000000.

(** What wakes the daemon up: a tick of the ticker, with the completion
    order and the clock of the cycle it starts, or the stop signal on
    [updaterChan]. *)
Inductive Wakeup : Type :=
| Tick (sched : list nat) (now : Z)
| Stop.

(** Lines 145-151, one tick of [startFlagUpdaterDaemon]: the instance
    afterwards and the sources contacted.  The error of the cycle is only
    logged. *)
Definition updaterTick (g : GoFeatureFlag) (sched : list nat) (now : Z)
  : run (GoFeatureFlag * list nat) :=
  if IsOffline g then Done (g, [])
  else
    r ←r retrieveFlagsAndUpdateCache
           (config g) (cache g) (retrieverManager g) sched now;
    Done ({| cache := r.1.1; config := config g;
             bgUpdater := bgUpdater g;
             dataExporter := dataExporter g;
             retrieverManager := retrieverManager g |}, r.2).

(** [startFlagUpdaterDaemon], lines 142-156, along the wake-ups it
    receives: the instance afterwards, the sources contacted by each tick it
    processed, and whether it has returned.  Reading [ticker.C] of a nil
    ticker panics; a nil [updaterChan] never delivers a stop signal. *)
Fixpoint startFlagUpdaterDaemon (g : GoFeatureFlag) (wakeups : list Wakeup)
  : run (GoFeatureFlag * list (list nat) * bool) :=
  match ticker (bgUpdater g) with
  | None => Panic
  | Some _ =>
      match wakeups with
      | [] => Done (g, [], false)
      | Tick sched now :: rest =>
          r ←r updaterTick g sched now;
          r' ←r startFlagUpdaterDaemon r.1 rest;
          Done (r'.1.1, r.2 :: r'.1.2, r'.2)
      | Stop :: rest =>
          match updaterChan (bgUpdater g) with
          | Some _ => Done (g, [], true)
          | None => startFlagUpdaterDaemon g rest
          end
      end
  end.

(** The slots after all of [arrived] has been stored. *)
Definition stored (slots : list (gmap string DTO)) (arrived : list Results)
  : list (gmap string DTO) :=
  foldl (λ s v, <[Index v := Value v]> s) slots arrived.

(** Modelled from the spec: replacement of the snapshot is
    all-or-nothing, so an [UpdateCache] that reports an error leaves the
    cache as it was.  (The implementations of [cache.Manager] belong to
    package [cache].) *)
Definition all_or_nothing : Prop :=
  ∀ (c c' : C) (flags : gmap string DTO) (now : Z) (err : error),
    cache.UpdateCache c flags now = (c', Some err) → c' = c.

End refresh.

Arguments Results : clear implicits.
Arguments GoFeatureFlag : clear implicits.
Arguments Package : clear implicits.
Arguments retrieveFlagsAndUpdateCache : simpl never.
Arguments fetchAndMerge : simpl never.
End ffclient.

(** ** Package [config] of the relay proxy: the API keys *)
Module relayproxy.

(** The struct [APIKeys]. *)
Record APIKeys : Type := {
  Admin : list string;
  Evaluation : list string
}.

(** The struct [Config], its fields that hold API keys.  [Config_APIKeys]
    is the deprecated field [APIKeys]; the two private sets are nil until
    their first use. *)
Record Config : Type := {
  Config_APIKeys : list string;
  AuthorizedKeys : APIKeys;
  apiKeysSet : option (gset string);
  adminAPIKeySet : option (gset string)
}.

(** The loops [for _, currentAPIKey := range keys] that add every key of a
    slice to a set. *)
Definition addKeys (set : gset string) (keys : list string) : gset string :=
  foldl (λ acc currentAPIKey, {[currentAPIKey]} ∪ acc) set keys.

(** [APIKeysAdminExists], lines 239-250: the answer and the configuration
    afterwards, whose admin set is now built. *)
Definition APIKeysAdminExists (c : Config) (apiKey : string)
  : bool * Config :=
  let adminSet :=
    match adminAPIKeySet c with
    | None => addKeys ∅ (Admin (AuthorizedKeys c))
    | Some set => set
    end in
  (bool_decide (apiKey ∈ adminSet),
   {| Config_APIKeys := Config_APIKeys c;
      AuthorizedKeys := AuthorizedKeys c;
      apiKeysSet := apiKeysSet c;
      adminAPIKeySet := Some adminSet |}).

(** [APIKeyExists], lines 253-274. *)
Definition APIKeyExists (c : Config) (apiKey : string) : bool * Config :=
  let '(isAdmin, c) := APIKeysAdminExists c apiKey in
  if isAdmin then (true, c)
  else
    let keySet :=
      match apiKeysSet c with
      | None =>
          addKeys (addKeys ∅ (Config_APIKeys c))
                  (Evaluation (AuthorizedKeys c))
      | Some set => set
      end in
    (bool_decide (apiKey ∈ keySet),
     {| Config_APIKeys := Config_APIKeys c;
        AuthorizedKeys := AuthorizedKeys c;
        apiKeysSet := Some keySet;
        adminAPIKeySet := adminAPIKeySet c |}).

End relayproxy.

(** ** Package [config] of the relay proxy: validation and file lookup *)
Module relayproxy_checks.

Section checks.

(** The configuration of one retriever, of the exporter and of one
    notifier, with their methods [IsValid]; they are declared in other
    files of the package. *)
Variables RetrieverConf ExporterConf NotifierConf : Type.
Variable RetrieverConf_IsValid : RetrieverConf → option error.
Variable ExporterConf_IsValid : ExporterConf → option error.
Variable NotifierConf_IsValid : NotifierConf → option error.

(** [zapcore.Level] with the two levels that [config.go] names, and
    [zapcore.ParseLevel]. *)
Variable Level : Type.
Variables DebugLevel InvalidLevel : Level.
Variable ParseLevel : string → error + Level.

(** [os.Stat(path)] returned no error. *)
Variable Stat : string → bool.

(** The struct [Config], its fields that [IsValid], [IsDebugEnabled] and
    [ZapLogLevel] read.  [Retrievers] is a pointer to a slice. *)
Record Config : Type := {
  ListenPort : Z;
  Debug : bool;
  LogLevel : string;
  Retriever : option RetrieverConf;
  Retrievers : option (list RetrieverConf);
  Exporter : option ExporterConf;
  Notifiers : list NotifierConf
}.

(** The loops of [IsValid] that return the first error found. *)
Fixpoint firstError {A : Type} (isValid : A → option error) (items : list A)
  : option error :=
  match items with
  | [] => None
  | item :: rest =>
      match isValid item with
      | Some err => Some err
      | None => firstError isValid rest
      end
  end.

(** [IsValid], lines 277-325, on a receiver that may be nil. *)
Definition IsValid (c : option Config) : option error :=
  match c with
  | None => Some (errorString "empty config")
  | Some c =>
      if ListenPort c =? 0 then Some (errorString "invalid port 0")
      else
        match Retriever c, Retrievers c with
        | None, None =>
            Some (errorString "no retriever available in the configuration")
        | _, _ =>
            match Retriever c ≫= RetrieverConf_IsValid with
            | Some err => Some err
            | None =>
                match firstError RetrieverConf_IsValid
                        (default [] (Retrievers c)) with
                | Some err => Some err
                | None =>
                    match Exporter c ≫= ExporterConf_IsValid with
                    | Some err => Some err
                    | None =>
                        match firstError NotifierConf_IsValid (Notifiers c) with
                        | Some err => Some err
                        | None =>
                            if String.eqb (LogLevel c) "" then None
                            else
                              match ParseLevel (LogLevel c) with
                              | inl err => Some err
                              | inr _ => None
                              end
                        end
                    end
                end
            end
        end
  end.

(** [IsDebugEnabled], lines 417-422. *)
Definition IsDebugEnabled (c : option Config) : bool :=
  match c with
  | None => false
  | Some c => String.eqb (LogLevel c) "debug" || Debug c
  end.

(** [ZapLogLevel], lines 424-437. *)
Definition ZapLogLevel (c : option Config) : Level :=
  match c with
  | None => InvalidLevel
  | Some c =>
      if Debug c then DebugLevel
      else
        match ParseLevel (LogLevel c) with
        | inl _ => InvalidLevel
        | inr level => level
        end
  end.

(** [locateConfigFile], lines 328-358. *)
Definition filename : string := "goff-proxy".

Definition defaultLocations : list string :=
  ["./"; "/goff/"; "/etc/opt/goff/"]%string.

Definition supportedExtensions : list string :=
  ["yaml"; "toml"; "json"; "yml"]%string.

(** [strings.Join(elems, sep)]. *)
Fixpoint Join (elems : list string) (sep : string) : string :=
  match elems with
  | [] => ""
  | [e] => e
  | e :: rest => e +:+ sep +:+ Join rest sep
  end.

(** The inner loop, over the extensions at one location. *)
Fixpoint locateAt (location : string) (extensions : list string)
  : option string :=
  match extensions with
  | [] => None
  | ext :: rest =>
      let configFile := location +:+ filename +:+ "." +:+ ext in
      if Stat configFile then Some configFile else locateAt location rest
  end.

(** The outer loop, over the locations. *)
Fixpoint locateIn (locations : list string) : option string :=
  match locations with
  | [] => None
  | location :: rest =>
      match locateAt location supportedExtensions with
      | Some configFile => Some configFile
      | None => locateIn rest
      end
  end.

(** The paths that the two loops try, in the order they try them. *)
Definition defaultCandidates : list string :=
  location ← defaultLocations;
  (λ ext, location +:+ filename +:+ "." +:+ ext) <$> supportedExtensions.

Definition locateConfigFile (inputFilePath : string) : string * option error :=
  if negb (String.eqb inputFilePath "") then
    if Stat inputFilePath then (inputFilePath, None)
    else ("", Some (errorString
                      ("impossible to find config file " +:+ inputFilePath)))
  else
    match locateIn defaultLocations with
    | Some configFile => (configFile, None)
    | None =>
        ("", Some (errorString
                     ("impossible to find config file in the default locations ["
                      +:+ Join defaultLocations "," +:+ "]")))
    end.

End checks.

Arguments ListenPort {_ _ _} _.
Arguments Debug {_ _ _} _.
Arguments LogLevel {_ _ _} _.
Arguments Retriever {_ _ _} _.
Arguments Retrievers {_ _ _} _.
Arguments Exporter {_ _ _} _.
Arguments Notifiers {_ _ _} _.

End relayproxy_checks.

(** ** Package [config] of the relay proxy: array items from the environment *)
Module relayproxy_env.

(** The values held in a configuration map as [interface{}]: a nested
    [map[string]interface{}], a [[]interface{}], or a scalar.  Go maps are
    references: the loop of [loadArrayEnv] mutates the nested maps in
    place, which on values that share no map is the functional update
    written below. *)
#[warnings="-register-all"]
Inductive value : Type :=
| VScalar (text : string)
| VMap (entries : gmap string value)
| VArray (items : list value).

(** Lines 382-399 and 400-401: walk down [keys], entering the maps that
    exist and creating the missing ones except for the last key, then
    assign [v] at [lastKey] in the map reached. *)
Fixpoint setPath (currentMap : gmap string value) (keys : list string)
    (lastKey v : string) : gmap string value :=
  match keys with
  | [] => <[lastKey := VScalar v]> currentMap
  | key :: rest =>
      match currentMap !! key with
      | Some (VMap nextMap) =>
          <[key := VMap (setPath nextMap rest lastKey v)]> currentMap
      | _ =>
          match rest with
          | [] => setPath currentMap rest lastKey v
          | _ :: _ => <[key := VMap (setPath ∅ rest lastKey v)]> currentMap
          end
      end
  end.

(** Reading a value back along a path of keys. *)
Fixpoint getPath (currentMap : gmap string value) (keys : list string)
  : option value :=
  match keys with
  | [] => None
  | [key] => currentMap !! key
  | key :: rest =>
      match currentMap !! key with
      | Some (VMap nextMap) => getPath nextMap rest
      | _ => None
      end
  end.

(** Every key of the path names a nested map. *)
Fixpoint descends (currentMap : gmap string value) (keys : list string)
  : bool :=
  match keys with
  | [] => true
  | key :: rest =>
      match currentMap !! key with
      | Some (VMap nextMap) => descends nextMap rest
      | _ => false
      end
  end.

(** The type [int] of Go, taken 64 bits wide: its bounds, and the value
    that its wrap-around arithmetic gives to an integer. *)
Definition intSize : Z := 64.
Definition minInt : Z := - 2 ^ (intSize - 1).
Definition maxInt : Z := 2 ^ (intSize - 1) - 1.
Definition int_wrap (z : Z) : Z :=
  (z - minInt) `mod` 2 ^ intSize + minInt.

Section env.

(** [strings.Split], [strings.ToLower] and [strconv.Atoi]; the integer
    that [Atoi] returns is an [int], between [minInt] and [maxInt]. *)
Variable Split : string → string → list string.
Variable ToLower : string → string.
Variable Atoi : string → error + Z.

(** [loadArrayEnv], lines 361-415: the error returned and the call
    [k.Set(prefixKey, configArray)], when it is made.  Indexing a slice out
    of its range and asserting the type of a value that is not a map
    panic.  [blank] is computed on [int], where it wraps around; the loop
    of line 404 appends [blank] empty maps, none when [blank] is not
    positive, and the assignment of line 408 checks the index against the
    array as the loop left it.  Memory is taken to be unbounded. *)
Definition loadArrayEnv (s v : string) (configMap : gmap string value)
  : run (option error * option (string * list value)) :=
  let paths := ToLower <$> Split s "_" in
  match paths with
  | [] => Panic
  | prefixKey :: _ =>
      match configMap !! prefixKey with
      | Some (VArray configArray) =>
          match paths !! 1%nat with
          | None => Panic
          | Some position =>
              match Atoi position with
              | inl err => Done (Some err, None)
              | inr index =>
                  let outRange := Z.of_nat (length configArray) - 1 <? index in
                  configItem ←r
                    (if outRange then Done ∅
                     else if index <? 0 then Panic
                     else match configArray !! Z.to_nat index with
                          | Some (VMap item) => Done item
                          | _ => Panic
                          end);
                  let keys := drop 2 paths in
                  match last keys with
                  | None => Panic
                  | Some lastKey =>
                      let configItem := setPath configItem keys lastKey v in
                      let blank :=
                        int_wrap
                          (index - Z.of_nat (length configArray) + 1) in
                      let configArray :=
                        if outRange
                        then configArray ++ replicate (Z.to_nat blank) (VMap ∅)
                        else configArray in
                      if (0 <=? index)
                         && (index <? Z.of_nat (length configArray))
                      then
                        Done (None,
                              Some (prefixKey,
                                    <[Z.to_nat index := VMap configItem]>
                                      configArray))
                      else Panic
                  end
              end
          end
      | _ => Done (None, None)
      end
  end.

End env.

End relayproxy_env.

(** ** Concrete collaborators

    Small stand-ins for the collaborators that package [ffclient] receives,
    used to run the definitions above on concrete inputs. *)
Module fixtures.
Import retriever ffclient.

(** A converter for flag files whose bytes are the values of the flags
    ["a"], ["b"], ["c"], in that order; an empty file is an error. *)
Definition convert (rawValue : list Byte.byte) (format : string)
  : gmap string Z * option error :=
  match rawValue with
  | [] => (∅, Some (errorString "empty flag file"))
  | _ =>
      (list_to_map
         (zip ["a"; "b"; "c"]%string
              ((λ b, Z.of_N (Byte.to_N b)) <$> rawValue)),
       None)
  end.

(** Modelled from the spec: the flag cache holds the current snapshot and
    the date of its last refresh; a replacement installs both at once, and
    closing clears the snapshot. *)
Record memCache : Type := {
  snapshot : gmap string Z;
  latestUpdate : Z
}.

#[export] Instance memCache_Manager : cache.Manager Z memCache := {|
  cache.New := {| snapshot := ∅; latestUpdate := 0 |};
  cache.UpdateCache c newFlags now :=
    ({| snapshot := newFlags; latestUpdate := now |}, None);
  cache.Close c := {| snapshot := ∅; latestUpdate := latestUpdate c |};
  cache.GetLatestUpdateDate := latestUpdate
|}.

(** A [close] of the background updater that leaves its fields set. *)
Definition keepFields (bg : backgroundUpdater) : backgroundUpdater := bg.

(** An [Init] of the retriever manager that succeeds. *)
Definition initOk (m : Manager) : Manager * option error := (m, None).

(** An [Init] that reports an error. *)
Definition initFails (m : Manager) : Manager * option error :=
  (m, Some (errorString "retriever not initialised")).

(** Source A yields [{a:1}], source B yields [{a:2, b:3}]. *)
Definition sourceA : Retriever :=
  {| initializable := None; Retrieve := inr [Byte.x01] |}.

Definition sourceB : Retriever :=
  {| initializable := None; Retrieve := inr [Byte.x02; Byte.x03] |}.

(** A source whose fetch fails. *)
Definition unreachable : Retriever :=
  {| initializable := Some RetrieverReady;
     Retrieve := inl (errorString "unreachable") |}.

(** Another source whose fetch fails, with another error. *)
Definition forbidden : Retriever :=
  {| initializable := None; Retrieve := inl (errorString "forbidden") |}.

(** A source that is still initialising. *)
Definition handshaking : Retriever :=
  {| initializable := Some RetrieverNotReady;
     Retrieve := inr [Byte.x09] |}.

Definition configOf (interval : Z) (offline startWithError : bool)
    (retrievers : list Retriever) : Config :=
  {| PollingInterval := interval;
     EnablePollingJitter := false;
     Offline := offline;
     StartWithRetrieverError := startWithError;
     FileFormat := "yaml";
     DataExporterConf :=
       {| Exporter := Some true; FlushInterval := 60 * Second;
          MaxEventInMemory := 100000 |};
     Config_GetRetrievers := inr retrievers |}.

(** A relay-proxy configuration with one admin key and two evaluation
    keys, its private sets not built yet. *)
Definition proxyConfig : relayproxy.Config :=
  {| relayproxy.Config_APIKeys := ["legacy"%string];
     relayproxy.AuthorizedKeys :=
       {| relayproxy.Admin := ["root"%string];
          relayproxy.Evaluation := ["eval"%string] |};
     relayproxy.apiKeysSet := None;
     relayproxy.adminAPIKeySet := None |}.

(** An instance as [New] builds it online: every component set. *)
Definition liveInstance (retrievers : list Retriever)
  : GoFeatureFlag memCache :=
  {| cache := Some {| snapshot := {["a" := 1]}; latestUpdate := 3 |};
     config := configOf Second false false retrievers;
     bgUpdater := newBackgroundUpdater Second false;
     dataExporter := Some (NewScheduler (60 * Second) 100000 true);
     retrieverManager := Some (NewManager retrievers) |}.

(** An instance as [New] builds it in offline mode: only the
    configuration is set. *)
Definition offlineInstance (retrievers : list Retriever)
  : GoFeatureFlag memCache :=
  {| cache := None;
     config := configOf Second true false retrievers;
     bgUpdater := backgroundUpdater_zero;
     dataExporter := None;
     retrieverManager := None |}.

(** The instance that [New] builds online from sources A and B, its first
    cycle run at time 7. *)
Definition freshInstance : GoFeatureFlag memCache :=
  {| cache := Some {| snapshot := {["a" := 2; "b" := 3]}; latestUpdate := 7 |};
     config := configOf Second false false [sourceA; sourceB];
     bgUpdater := newBackgroundUpdater Second false;
     dataExporter := Some (NewScheduler (60 * Second) 100000 true);
     retrieverManager := Some (NewManager [sourceA; sourceB]) |}.

(** The package before any [Init]. *)
Definition emptyPackage : Package memCache :=
  {| ff := None; onceFF := false |}.

(** Stand-ins for the relay proxy: a retriever, exporter or notifier
    configuration is its kind, valid when the kind is not empty. *)
Definition kindIsValid (what kind : string) : option error :=
  if String.eqb kind "" then Some (errorString ("invalid " +:+ what))
  else None.

(** Levels as zap numbers them, and a parser of their lower-case names. *)
Definition parseLevel (text : string) : error + Z :=
  if String.eqb text "debug" then inr (-1)
  else if String.eqb text "info" then inr 0
  else if String.eqb text "warn" then inr 1
  else if String.eqb text "error" then inr 2
  else inl (errorString ("unrecognized level: " +:+ text)).

(** A file system that holds two of the default configuration files. *)
Definition twoFiles (path : string) : bool :=
  String.eqb path "/goff/goff-proxy.yml"
  || String.eqb path "/etc/opt/goff/goff-proxy.yaml".

Definition checkedConfig (retrievers : list string) (level : string)
  : relayproxy_checks.Config string string string :=
  {| relayproxy_checks.ListenPort := 1031;
     relayproxy_checks.Debug := false;
     relayproxy_checks.LogLevel := level;
     relayproxy_checks.Retriever := None;
     relayproxy_checks.Retrievers := Some retrievers;
     relayproxy_checks.Exporter := None;
     relayproxy_checks.Notifiers := [] |}.

(** Stand-ins for [strings.Split] on a separator of one character,
    [strings.ToLower] on ASCII letters and [strconv.Atoi] on decimal digits
    with an optional minus sign. *)
Fixpoint splitAt (sep : Ascii.ascii) (s : string) : list string :=
  match s with
  | EmptyString => [EmptyString]
  | String c rest =>
      let parts := splitAt sep rest in
      if Ascii.eqb c sep then EmptyString :: parts
      else match parts with
           | [] => [String c EmptyString]
           | part :: others => String c part :: others
           end
  end.

Definition splitOn (s sep : string) : list string :=
  match sep with
  | String c EmptyString => splitAt c s
  | _ => [s]
  end.

Definition lowerChar (c : Ascii.ascii) : Ascii.ascii :=
  let n := Ascii.nat_of_ascii c in
  if (65 <=? n)%nat && (n <=? 90)%nat then Ascii.ascii_of_nat (n + 32) else c.

Fixpoint toLower (s : string) : string :=
  match s with
  | EmptyString => EmptyString
  | String c rest => String (lowerChar c) (toLower rest)
  end.

Fixpoint digitsValue (s : string) (acc : Z) : option Z :=
  match s with
  | EmptyString => Some acc
  | String c rest =>
      let n := Ascii.nat_of_ascii c in
      if (48 <=? n)%nat && (n <=? 57)%nat
      then digitsValue rest (10 * acc + Z.of_nat (n - 48))
      else None
  end.

Definition atoi (s : string) : error + Z :=
  let invalid := inl (errorString ("invalid syntax: " +:+ s)) in
  let inRange (n : Z) :=
    if (relayproxy_env.minInt <=? n) && (n <=? relayproxy_env.maxInt)
    then inr n
    else inl (errorString ("value out of range: " +:+ s)) in
  match s with
  | EmptyString => invalid
  | String c rest =>
      if Ascii.eqb c (Ascii.ascii_of_nat 45) then
        match rest, digitsValue rest 0 with
        | String _ _, Some n => inRange (- n)
        | _, _ => invalid
        end
      else
        match digitsValue s 0 with
        | Some n => inRange n
        | None => invalid
        end
  end.

(** A configuration map with one retriever. *)
Definition oneRetriever : gmap string relayproxy_env.value :=
  {["retrievers" :=
      relayproxy_env.VArray
        [relayproxy_env.VMap
           {["kind" := relayproxy_env.VScalar "http"]}]]}.

End fixtures.

(** * Properties of [ffclient] *)
Module ffclient_facts.
Import retriever ffclient.

(** Membership of a call in an explicit list of calls. *)
Ltac calls_membership :=
  intros; rewrite ?elem_of_cons, ?elem_of_nil in *; intuition congruence.

Section facts.

Context {DTO C : Type} `{!cache.Manager DTO C}.
Variable ConvertToFlagStruct :
  list Byte.byte → string → gmap string DTO * option error.
Variable bgUpdater_close : backgroundUpdater → backgroundUpdater.
Variable Manager_Init : Manager → Manager * option error.

Local Abbreviation Results := (Results DTO).
Local Abbreviation GoFeatureFlag := (GoFeatureFlag C).
Local Abbreviation Package := (Package C).
Local Abbreviation all_or_nothing := (@all_or_nothing DTO C _).
Local Abbreviation retrieverTask := (retrieverTask ConvertToFlagStruct).
Local Abbreviation launch := (launch ConvertToFlagStruct).
Local Abbreviation fetchAndMerge := (fetchAndMerge ConvertToFlagStruct).
Local Abbreviation retrieveFlagsAndUpdateCache :=
  (retrieveFlagsAndUpdateCache ConvertToFlagStruct).
Local Abbreviation New := (New ConvertToFlagStruct Manager_Init).
Local Abbreviation ForceRefresh := (ForceRefresh ConvertToFlagStruct).
Local Abbreviation Close := (Close bgUpdater_close).
Local Abbreviation Close_outcome := (Close_outcome bgUpdater_close).
Local Abbreviation Package_Close := (Package_Close bgUpdater_close).

(** *** The merge *)

Lemma mergeInto_union (newFlags flags : gmap string DTO) :
  mergeInto newFlags flags = flags ∪ newFlags.
Proof.
  unfold mergeInto.
  apply (map_fold_weak_ind (λ r m, r = m ∪ newFlags)).
  - by rewrite (left_id_L ∅ (∪)).
  - intros i x m r _ ->. by rewrite insert_union_l.
Qed.

Lemma mergeFlags_snoc (slots : list (gmap string DTO))
    (flags : gmap string DTO) :
  mergeFlags (slots ++ [flags]) = flags ∪ mergeFlags slots.
Proof.
  unfold mergeFlags. rewrite foldl_app. simpl. apply mergeInto_union.
Qed.

(** A key of the merged set has the value of the last slot holding it. *)
Lemma mergeFlags_lookup_last (slots : list (gmap string DTO))
    (i : nat) (flags : gmap string DTO) (k : string) (v : DTO) :
  slots !! i = Some flags →
  flags !! k = Some v →
  (∀ j flags', (i < j)%nat → slots !! j = Some flags' → flags' !! k = None) →
  mergeFlags slots !! k = Some v.
Proof.
  revert i. induction slots as [|last slots IH] using rev_ind;
    intros i Hi Hk Hlater; [done|].
  rewrite mergeFlags_snoc.
  destruct (decide (i = length slots)) as [->|Hne].
  - rewrite lookup_app_r, Nat.sub_diag in Hi by lia.
    simpl in Hi. injection Hi as ->.
    by rewrite lookup_union_l', Hk.
  - assert (i < length slots)%nat as Hlt.
    { apply lookup_lt_Some in Hi. rewrite length_app in Hi. simpl in Hi. lia. }
    rewrite lookup_app_l in Hi by done.
    assert (last !! k = None) as Hlast.
    { apply (Hlater (length slots)); [done|].
      by rewrite lookup_app_r, Nat.sub_diag by lia. }
    rewrite lookup_union_r by done.
    apply (IH i); [done..|].
    intros j flags' Hj Hjs. apply (Hlater j); [done|].
    rewrite lookup_app_l; [done|]. by apply lookup_lt_Some in Hjs.
Qed.

(** A key that no slot holds is absent from the merged set. *)
Lemma mergeFlags_lookup_None (slots : list (gmap string DTO)) (k : string) :
  (∀ j flags, slots !! j = Some flags → flags !! k = None) →
  mergeFlags slots !! k = None.
Proof.
  induction slots as [|last slots IH] using rev_ind; intros Hall; [done|].
  rewrite mergeFlags_snoc, lookup_union_None. split.
  - apply (Hall (length slots)).
    by rewrite lookup_app_r, Nat.sub_diag by lia.
  - apply IH. intros j flags Hj. apply (Hall j).
    rewrite lookup_app_l; [done|]. by apply lookup_lt_Some in Hj.
Qed.

(** An empty slot adds nothing. *)
Lemma mergeFlags_delete_empty (slots : list (gmap string DTO)) (i : nat) :
  slots !! i = Some ∅ →
  mergeFlags (delete i slots) = mergeFlags slots.
Proof.
  intros Hi. unfold mergeFlags.
  generalize (∅ : gmap string DTO) at 1 2 as acc.
  revert i Hi. induction slots as [|flags slots IH]; intros [|i] Hi acc;
    try done; simpl in *.
  - injection Hi as ->. by rewrite mergeInto_union, (left_id_L ∅ (∪)).
  - by apply IH.
Qed.

(** *** The tasks and the receiving loop *)

Lemma retrieverTask_Index (r : Retriever) (format : string) (index : nat) :
  Index (retrieverTask r format index) = index.
Proof.
  unfold retrieverTask. destruct (notReady r); [done|].
  destruct (Retrieve r) as [err|rawValue]; [done|].
  by destruct (ConvertToFlagStruct rawValue format).
Qed.

Lemma launch_lookup (format : string) (retrievers : list Retriever)
    (i : nat) :
  launch format retrievers !! i
  = (λ r, retrieverTask r format i) <$> retrievers !! i.
Proof. unfold launch. apply list_lookup_imap. Qed.

Lemma length_launch (format : string) (retrievers : list Retriever) :
  length (launch format retrievers) = length retrievers.
Proof. unfold launch. apply length_imap. Qed.

Lemma launch_Index (format : string) (retrievers : list Retriever)
    (i : nat) (t : Results) :
  launch format retrievers !! i = Some t → Index t = i.
Proof.
  rewrite launch_lookup. destruct (retrievers !! i) as [r|]; [|done].
  simpl. intros [= <-]. apply retrieverTask_Index.
Qed.

Lemma launch_indices (format : string) (retrievers : list Retriever) :
  Index <$> launch format retrievers = seq 0 (length retrievers).
Proof.
  apply list_eq. intros i. rewrite list_lookup_fmap.
  destruct (launch format retrievers !! i) as [t|] eqn:Ht; simpl.
  - rewrite (launch_Index _ _ _ _ Ht). symmetry. apply lookup_seq.
    split; [done|]. apply lookup_lt_Some in Ht.
    by rewrite length_launch in Ht.
  - symmetry. apply lookup_ge_None. rewrite length_seq.
    apply lookup_ge_None in Ht. by rewrite length_launch in Ht.
Qed.

Lemma arrivals_in_order (tasks : list Results) (n : nat) :
  (n ≤ length tasks)%nat → arrivals tasks (seq 0 n) = take n tasks.
Proof.
  unfold arrivals. induction n as [|n IH]; intros Hn; [done|].
  rewrite seq_S, omap_app, IH by lia. simpl.
  destruct (lookup_lt_is_Some_2 tasks n) as [t Ht]; [lia|].
  rewrite Ht. simpl. by rewrite (take_S_r _ _ _ Ht).
Qed.

(** Whatever the completion order, the loop receives every result once. *)
Lemma arrivals_Permutation (format : string) (retrievers : list Retriever)
    (sched : list nat) :
  completes retrievers sched →
  arrivals (launch format retrievers) sched ≡ₚ launch format retrievers.
Proof.
  unfold completes. intros Hs. unfold arrivals at 1. rewrite Hs.
  fold (arrivals (launch format retrievers) (seq 0 (length retrievers))).
  rewrite arrivals_in_order by (by rewrite length_launch).
  rewrite <- (length_launch format). by rewrite firstn_all.
Qed.

Lemma length_stored (arrived : list Results)
    (slots : list (gmap string DTO)) :
  length (stored slots arrived) = length slots.
Proof.
  revert slots. induction arrived as [|v rest IH]; intros slots; [done|].
  simpl. by rewrite IH, length_insert.
Qed.

Lemma stored_lookup_other (arrived : list Results)
    (slots : list (gmap string DTO)) (i : nat) :
  (∀ v, v ∈ arrived → Index v ≠ i) →
  stored slots arrived !! i = slots !! i.
Proof.
  revert slots. induction arrived as [|v rest IH]; intros slots Hne; [done|].
  simpl. rewrite IH.
  - apply list_lookup_insert_ne, Hne. left.
  - intros w Hw. apply Hne. by right.
Qed.

Lemma stored_lookup_Index (arrived : list Results)
    (slots : list (gmap string DTO)) (v : Results) :
  NoDup (Index <$> arrived) →
  v ∈ arrived →
  (Index v < length slots)%nat →
  stored slots arrived !! Index v = Some (Value v).
Proof.
  revert slots. induction arrived as [|a rest IH]; intros slots Hnd Hv Hlt.
  - by apply elem_of_nil in Hv.
  - rewrite fmap_cons in Hnd. apply NoDup_cons in Hnd as [Hnotin Hnd].
    simpl. apply elem_of_cons in Hv as [->|Hv].
    + rewrite stored_lookup_other.
      * by apply list_lookup_insert_eq.
      * intros w Hw Heq. apply Hnotin. rewrite <- Heq.
        by apply list_elem_of_fmap_2.
    + apply IH; [done..|]. by rewrite length_insert.
Qed.

Lemma collect_no_error (arrived : list Results)
    (slots : list (gmap string DTO)) :
  (∀ v, v ∈ arrived → Error v = None) →
  collect arrived slots = inr (stored slots arrived).
Proof.
  revert slots. induction arrived as [|v rest IH]; intros slots Hok; [done|].
  simpl. rewrite (Hok v) by left. apply IH. intros w Hw. apply Hok. by right.
Qed.

Lemma collect_error_inv (arrived : list Results)
    (slots : list (gmap string DTO)) (err : error) :
  collect arrived slots = inl err →
  ∃ v, v ∈ arrived ∧ Error v = Some err.
Proof.
  revert slots. induction arrived as [|v rest IH]; intros slots; [done|].
  simpl. destruct (Error v) as [e|] eqn:He.
  - intros [= <-]. exists v. split; [left|done].
  - intros Hc. destruct (IH _ Hc) as (w & Hw & Hew).
    exists w. split; [by right|done].
Qed.

Lemma collect_error (arrived : list Results)
    (slots : list (gmap string DTO)) (v : Results) :
  v ∈ arrived → Error v ≠ None →
  ∃ err, collect arrived slots = inl err.
Proof.
  revert slots. induction arrived as [|a rest IH]; intros slots Hv Hne.
  - by apply elem_of_nil in Hv.
  - simpl. destruct (Error a) as [e|] eqn:He; [by exists e|].
    apply elem_of_cons in Hv as [->|Hv]; [done|]. by apply IH.
Qed.

(** When no result carries an error, slot [i] ends up holding the value
    of source [i], in whatever order the results arrived. *)
Lemma stored_arrivals (format : string) (retrievers : list Retriever)
    (sched : list nat) :
  completes retrievers sched →
  stored (replicate (length retrievers) ∅)
         (arrivals (launch format retrievers) sched)
  = Value <$> launch format retrievers.
Proof.
  intros Hs. pose proof (arrivals_Permutation format _ _ Hs) as Hperm.
  apply list_eq. intros i. rewrite list_lookup_fmap.
  destruct (launch format retrievers !! i) as [t|] eqn:Ht; simpl.
  - rewrite <- (launch_Index _ _ _ _ Ht). apply stored_lookup_Index.
    + rewrite Hperm, launch_indices. apply NoDup_seq.
    + rewrite Hperm. by apply list_elem_of_lookup_2 in Ht.
    + rewrite length_replicate, (launch_Index _ _ _ _ Ht).
      apply lookup_lt_Some in Ht. by rewrite length_launch in Ht.
  - apply lookup_ge_None. rewrite length_stored, length_replicate.
    apply lookup_ge_None in Ht. by rewrite length_launch in Ht.
Qed.

Lemma fetchAndMerge_ok (format : string) (retrievers : list Retriever)
    (sched : list nat) :
  completes retrievers sched →
  (∀ t, t ∈ launch format retrievers → Error t = None) →
  fetchAndMerge format retrievers sched
  = inr (mergeFlags (Value <$> launch format retrievers)).
Proof.
  intros Hs Hok. unfold fetchAndMerge. rewrite collect_no_error.
  - by rewrite stored_arrivals.
  - intros v Hv. apply Hok. by rewrite <- (arrivals_Permutation _ _ _ Hs).
Qed.

Lemma fetchAndMerge_error_inv (format : string)
    (retrievers : list Retriever) (sched : list nat) (err : error) :
  completes retrievers sched →
  fetchAndMerge format retrievers sched = inl err →
  ∃ t, t ∈ launch format retrievers ∧ Error t = Some err.
Proof.
  intros Hs. unfold fetchAndMerge.
  destruct (collect _ _) as [e|slots] eqn:Hc; [|done].
  intros [= ->]. destruct (collect_error_inv _ _ _ Hc) as (v & Hv & He).
  exists v. split; [|done]. by rewrite <- (arrivals_Permutation _ _ _ Hs).
Qed.

Lemma fetchAndMerge_error (format : string) (retrievers : list Retriever)
    (sched : list nat) (t : Results) :
  completes retrievers sched →
  t ∈ launch format retrievers → Error t ≠ None →
  ∃ err, fetchAndMerge format retrievers sched = inl err.
Proof.
  intros Hs Ht Hne. unfold fetchAndMerge.
  destruct (collect_error (arrivals (launch format retrievers) sched)
              (replicate (length retrievers) ∅) t) as [err ->];
    [by rewrite (arrivals_Permutation _ _ _ Hs)|done|by exists err].
Qed.

Lemma elem_of_retrieved (retrievers : list Retriever) (i : nat) :
  i ∈ retrieved retrievers
  ↔ ∃ r, retrievers !! i = Some r ∧ notReady r = false.
Proof.
  unfold retrieved. rewrite list_elem_of_omap. split.
  - intros ([j r] & Hin & Hsel). simpl in Hsel.
    apply list_elem_of_lookup in Hin as [n Hn].
    rewrite list_lookup_imap in Hn.
    destruct (retrievers !! n) as [r'|] eqn:Hr; [|done].
    simpl in Hn. injection Hn as <- <-.
    destruct (notReady r') eqn:Hnr; [done|].
    injection Hsel as <-. by exists r'.
  - intros (r & Hr & Hnr). exists (i, r). split.
    + apply list_elem_of_lookup. exists i.
      by rewrite list_lookup_imap, Hr.
    + simpl. by rewrite Hnr.
Qed.

Lemma fetchAndMerge_ok_inv (format : string) (retrievers : list Retriever)
    (sched : list nat) (flags : gmap string DTO) :
  completes retrievers sched →
  fetchAndMerge format retrievers sched = inr flags →
  (∀ t, t ∈ launch format retrievers → Error t = None)
  ∧ flags = mergeFlags (Value <$> launch format retrievers).
Proof.
  intros Hs Hf.
  assert (∀ t, t ∈ launch format retrievers → Error t = None) as Hok.
  { intros t Ht. destruct (Error t) as [e|] eqn:He; [|done].
    destruct (fetchAndMerge_error format retrievers sched t)
      as [e1 He1]; [done..|by rewrite He|]. by rewrite Hf in He1. }
  split; [done|].
  rewrite (fetchAndMerge_ok _ _ _ Hs Hok) in Hf. by injection Hf as <-.
Qed.

(** *** The refresh cycle *)

(** C1.  In a refresh cycle without hard error, a flag key contributed by
    source [i] and by no source of higher index has, in the merged set,
    the value of source [i]: the highest index among the contributing
    sources wins, in whatever order the tasks complete.  That merged set
    is the one handed to the cache. *)
Theorem highest_index_source_wins (config : Config) (c : C) (rm : Manager)
    (sched : list nat) (now : Z) (i : nat) (t : Results)
    (k : string) (v : DTO) :
  let tasks := launch (FileFormat config) (GetRetrievers rm) in
  completes (GetRetrievers rm) sched →
  (∀ t', t' ∈ tasks → Error t' = None) →
  tasks !! i = Some t →
  Value t !! k = Some v →
  (∀ j t', (i < j)%nat → tasks !! j = Some t' → Value t' !! k = None) →
  ∃ newFlags,
    fetchAndMerge (FileFormat config) (GetRetrievers rm) sched = inr newFlags
    ∧ newFlags !! k = Some v
    ∧ retrieveFlagsAndUpdateCache config (Some c) (Some rm) sched now
      = Done (Some (cache.UpdateCache c newFlags now).1,
              (cache.UpdateCache c newFlags now).2,
              retrieved (GetRetrievers rm)).
Proof.
  intros tasks Hs Hok Hi Hk Hlater.
  exists (mergeFlags (Value <$> tasks)).
  assert (fetchAndMerge (FileFormat config) (GetRetrievers rm) sched
          = inr (mergeFlags (Value <$> tasks))) as Hfetch
    by by apply fetchAndMerge_ok.
  split; [done|]. split.
  - apply (mergeFlags_lookup_last _ i (Value t)); [|done|].
    + by rewrite list_lookup_fmap, Hi.
    + intros j flags' Hj. rewrite list_lookup_fmap.
      destruct (tasks !! j) as [t'|] eqn:Ht'; [|done].
      simpl. intros [= <-]. by apply (Hlater j).
  - unfold ffclient.retrieveFlagsAndUpdateCache. rewrite Hfetch.
    by destruct (cache.UpdateCache _ _ _).
Qed.

(** C7.  Two runs of the cycle over the same sources, whose tasks
    complete in different orders, either both fail or both produce the
    same merged set, which is the merge of the per-source values in
    index order. *)
Theorem merged_set_independent_of_completion_order (format : string)
    (retrievers : list Retriever) (sched1 sched2 : list nat) :
  completes retrievers sched1 →
  completes retrievers sched2 →
  match fetchAndMerge format retrievers sched1,
        fetchAndMerge format retrievers sched2 with
  | inr flags1, inr flags2 =>
      flags1 = flags2
      ∧ flags1 = mergeFlags (Value <$> launch format retrievers)
  | inl _, inl _ => True
  | _, _ => False
  end.
Proof.
  intros Hs1 Hs2.
  destruct (fetchAndMerge format retrievers sched1) as [e1|flags1] eqn:H1.
  - destruct (fetchAndMerge_error_inv _ _ _ _ Hs1 H1) as (t & Ht & He).
    destruct (fetchAndMerge_error format retrievers sched2 t) as [e2 ->];
      [done..|by rewrite He|done].
  - destruct (fetchAndMerge_ok_inv _ _ _ _ Hs1 H1) as [Hok ->].
    by rewrite (fetchAndMerge_ok _ _ _ Hs2 Hok).
Qed.

(** C6.  A source whose readiness status is not [RetrieverReady] sends an
    empty flag set and no error, and its [Retrieve] is not invoked.  The
    cycle still yields its outcome: if it fails, the error comes from
    another source; if it succeeds, the merged set is the merge of the
    other sources' values. *)
Theorem not_ready_source_contributes_nothing (format : string)
    (retrievers : list Retriever) (sched : list nat) (i : nat)
    (r : Retriever) (s : Status) :
  completes retrievers sched →
  retrievers !! i = Some r →
  initializable r = Some s →
  s ≠ RetrieverReady →
  launch format retrievers !! i
    = Some {| Error := None; Value := ∅; Index := i |}
  ∧ (i ∉ retrieved retrievers)
  ∧ (match fetchAndMerge format retrievers sched with
     | inl err =>
         ∃ j t, j ≠ i ∧ launch format retrievers !! j = Some t
                ∧ Error t = Some err
     | inr newFlags =>
         newFlags
         = mergeFlags (delete i (Value <$> launch format retrievers))
     end).
Proof.
  intros Hs Hr Hinit Hne.
  assert (notReady r = true) as Hnr.
  { unfold notReady. rewrite Hinit. by destruct s. }
  assert (launch format retrievers !! i
          = Some {| Error := None; Value := ∅; Index := i |}) as Hi.
  { rewrite launch_lookup, Hr. simpl.
    unfold ffclient.retrieverTask. by rewrite Hnr. }
  split; [done|]. split.
  - rewrite elem_of_retrieved. intros (r' & Hr' & Hnr').
    rewrite Hr in Hr'. injection Hr' as <-. by rewrite Hnr in Hnr'.
  - destruct (fetchAndMerge format retrievers sched) as [err|flags] eqn:Hf.
    + destruct (fetchAndMerge_error_inv _ _ _ _ Hs Hf) as (t & Ht & He).
      apply list_elem_of_lookup in Ht as [j Hj]. exists j, t.
      split; [|done]. intros ->. rewrite Hi in Hj.
      injection Hj as <-. done.
    + destruct (fetchAndMerge_ok_inv _ _ _ _ Hs Hf) as [_ ->].
      symmetry. apply mergeFlags_delete_empty.
      by rewrite list_lookup_fmap, Hi.
Qed.

(** A cycle that fails on a source leaves the cache as it was. *)
Lemma cycle_source_error (config : Config) (c : C) (rm : Manager)
    (sched : list nat) (now : Z) (t : Results) :
  completes (GetRetrievers rm) sched →
  t ∈ launch (FileFormat config) (GetRetrievers rm) →
  Error t ≠ None →
  ∃ err t',
    t' ∈ launch (FileFormat config) (GetRetrievers rm)
    ∧ Error t' = Some err
    ∧ retrieveFlagsAndUpdateCache config (Some c) (Some rm) sched now
      = Done (Some c, Some err, retrieved (GetRetrievers rm)).
Proof.
  intros Hs Ht Hne.
  destruct (fetchAndMerge_error _ _ _ _ Hs Ht Hne) as [err Hf].
  destruct (fetchAndMerge_error_inv _ _ _ _ Hs Hf) as (t' & Ht' & He').
  exists err, t'. split; [done|]. split; [done|].
  unfold ffclient.retrieveFlagsAndUpdateCache. by rewrite Hf.
Qed.

Lemma GoFeatureFlag_eta (g : GoFeatureFlag) :
  {| cache := cache g; config := config g; bgUpdater := bgUpdater g;
     dataExporter := dataExporter g;
     retrieverManager := retrieverManager g |} = g.
Proof. by destruct g. Qed.

(** C2.  On an instance that holds a cache: when the task of some source
    ends with a hard error, the cycle returns the error of a source and
    hands the cache back untouched (so its snapshot and its last-refresh
    date are what they were), and [ForceRefresh] returns false and leaves
    the instance as it was. *)
Theorem hard_error_keeps_cache (g : GoFeatureFlag) (c : C) (rm : Manager)
    (sched : list nat) (now : Z) (i : nat) (t : Results) :
  cache g = Some c →
  retrieverManager g = Some rm →
  completes (GetRetrievers rm) sched →
  launch (FileFormat (config g)) (GetRetrievers rm) !! i = Some t →
  Error t ≠ None →
  ∃ err j t',
    launch (FileFormat (config g)) (GetRetrievers rm) !! j = Some t'
    ∧ Error t' = Some err
    ∧ retrieveFlagsAndUpdateCache
        (config g) (cache g) (retrieverManager g) sched now
      = Done (cache g, Some err, retrieved (GetRetrievers rm))
    ∧ ∃ contacted, ForceRefresh g sched now = Done (false, g, contacted).
Proof.
  intros Hc Hrm Hs Hi Hne. apply list_elem_of_lookup_2 in Hi.
  destruct (cycle_source_error (config g) c rm sched now t
              Hs Hi Hne) as (err & t' & Ht' & He' & Hcycle).
  apply list_elem_of_lookup in Ht' as [j Hj].
  rewrite <- Hrm, <- Hc in Hcycle.
  exists err, j, t'. do 3 (split; [done|]).
  unfold ffclient.ForceRefresh. destruct (IsOffline g); [by eexists|].
  rewrite Hcycle. simpl. rewrite GoFeatureFlag_eta. by eexists.
Qed.

Lemma cycle_failure_keeps_cache (config : Config) (c c' : option C)
    (rm : option Manager) (sched : list nat) (now : Z) (err : error)
    (contacted : list nat) :
  all_or_nothing →
  retrieveFlagsAndUpdateCache config c rm sched now
    = Done (c', Some err, contacted) →
  c' = c.
Proof.
  intros Hlaw. unfold ffclient.retrieveFlagsAndUpdateCache.
  destruct rm as [rm|]; [|done].
  destruct c as [c|].
  - destruct (ffclient.fetchAndMerge _ _ _ _) as [e|flags];
      [by intros [= <- _ _]|].
    destruct (cache.UpdateCache c flags now) as [c1 [e|]] eqn:Hu;
      intros [= <- ? ?]; subst. by rewrite (Hlaw _ _ _ _ _ Hu).
  - destruct (existsb reachesConversion (GetRetrievers rm)); [done|].
    destruct (ffclient.fetchAndMerge _ _ _ _) as [e|flags]; [|done].
    by intros [= <- _ _].
Qed.

(** C3.  When [New] reaches its first refresh cycle and that cycle fails:
    with [StartWithRetrieverError] set it returns an instance and no
    error, the cache of the instance being the one [cache.New] created,
    never replaced; otherwise it returns no instance and the error
    "impossible to retrieve the flags". *)
Theorem New_when_first_cycle_fails (config : Config) (sched : list nat)
    (now interval : Z) (retrievers : list Retriever) (rm : Manager)
    (initErr : option error) (c' : option C) (err : error)
    (contacted : list nat) :
  all_or_nothing →
  New_pollingInterval (PollingInterval config) = inr interval →
  Offline config = false →
  Config_GetRetrievers config = inr retrievers →
  Manager_Init (NewManager retrievers) = (rm, initErr) →
  initErr = None ∨ StartWithRetrieverError config = true →
  retrieveFlagsAndUpdateCache (Config_setPollingInterval config interval)
    (Some cache.New) (Some rm) sched now
    = Done (c', Some err, contacted) →
  if StartWithRetrieverError config
  then ∃ g, New config sched now = Done (Some g, None)
            ∧ cache g = Some cache.New
            ∧ retrieverManager g = Some rm
  else New config sched now = Done (None, Some (errRetrieveFlags err)).
Proof.
  intros Hlaw Hint Hoff Hget Hinit Hreach Hcycle.
  pose proof (cycle_failure_keeps_cache _ _ _ _ _ _ _ _ Hlaw Hcycle) as ->.
  unfold ffclient.New. rewrite Hint. simpl. rewrite Hoff, Hget, Hinit.
  destruct (StartWithRetrieverError config) eqn:Hstart.
  - destruct initErr; rewrite Hcycle; simpl; by eexists.
  - destruct Hreach as [->|?]; [|done]. by rewrite Hcycle.
Qed.

(** An instance returned by [New] carries the configuration it was
    given, with the polling interval that the switch computed. *)
Lemma New_Some_config (config : Config) (sched : list nat) (now : Z)
    (g : GoFeatureFlag) :
  New config sched now = Done (Some g, None) →
  ∃ interval,
    New_pollingInterval (PollingInterval config) = inr interval
    ∧ ffclient.config g = Config_setPollingInterval config interval.
Proof.
  unfold ffclient.New.
  destruct (New_pollingInterval (PollingInterval config))
    as [e|interval]; [done|].
  intros Hnew. exists interval. split; [done|]. simpl in Hnew.
  destruct (Offline config); [by injection Hnew as <-|].
  destruct (Config_GetRetrievers config); [done|].
  destruct (Manager_Init _) as [rm initErr].
  assert (∀ r : run (option C * option error * list nat),
    (r0 ←r r;
     match r0.1.2, StartWithRetrieverError config with
     | Some e, false => Done (None, Some (errRetrieveFlags e))
     | _, _ =>
         Done (Some {| cache := r0.1.1;
                       config := Config_setPollingInterval config interval;
                       bgUpdater :=
                         newBackgroundUpdater interval
                           (EnablePollingJitter config);
                       dataExporter :=
                         New_dataExporter (DataExporterConf config);
                       retrieverManager := Some rm |}, None)
     end) = Done (Some g, None) →
    ffclient.config g = Config_setPollingInterval config interval) as Hk.
  { intros [[[c1 e1] contacted]|]; [|done]. simpl.
    destruct e1, (StartWithRetrieverError config); try done;
      by intros [= <-]. }
  destruct initErr, (StartWithRetrieverError config); try done;
    by apply Hk in Hnew.
Qed.

(** C4.  [New] rejects a negative polling interval; in an instance it
    returns, a zero interval has become 60 seconds, a positive interval
    below one second has become one second, and an interval of at least
    one second is unchanged.  (In offline mode [New] does return an
    instance for every interval that is not negative.) *)
Theorem New_normalizes_PollingInterval (config : Config)
    (sched : list nat) (now : Z) :
  let d := PollingInterval config in
  (d < 0 →
     New config sched now = Done (None, Some (errInvalidPollingInterval d)))
  ∧ (∀ g, New config sched now = Done (Some g, None) →
       (d = 0 → PollingInterval (ffclient.config g) = 60 * Second)
       ∧ (0 < d < Second → PollingInterval (ffclient.config g) = Second)
       ∧ (Second ≤ d → PollingInterval (ffclient.config g) = d))
  ∧ (0 ≤ d → Offline config = true →
       ∃ g, New config sched now = Done (Some g, None)).
Proof.
  intros d. split; [|split].
  - intros Hd. unfold ffclient.New, New_pollingInterval. fold d.
    destruct (Z.eqb_spec d 0); [lia|]. by destruct (Z.ltb_spec d 0); [|lia].
  - intros g Hnew.
    destruct (New_Some_config _ _ _ _ Hnew) as (interval & Hint & ->).
    simpl. unfold New_pollingInterval in Hint. fold d in Hint.
    unfold Second in *.
    destruct (Z.eqb_spec d 0);
      [|destruct (Z.ltb_spec d 0); [done|destruct (Z.ltb_spec d 1000000000)]];
      injection Hint as <-; repeat split; intros; lia.
  - intros Hd Hoff. unfold ffclient.New, New_pollingInterval. fold d.
    destruct (Z.eqb_spec d 0);
      [|destruct (Z.ltb_spec d 0); [lia|destruct (Z.ltb_spec d Second)]];
      simpl; rewrite Hoff; by eexists.
Qed.

(** *** Forced refresh *)

Lemma ForceRefresh_offline (g : GoFeatureFlag) (sched : list nat)
    (now : Z) :
  IsOffline g = true → ForceRefresh g sched now = Done (false, g, []).
Proof. intros Hoff. unfold ffclient.ForceRefresh. by rewrite Hoff. Qed.

(** On an instance that holds a cache and a retriever manager and is not
    offline, [ForceRefresh] returns false exactly when the cycle returns
    an error, and the cache is then the one it was. *)
Lemma ForceRefresh_online (g : GoFeatureFlag) (c : C) (rm : Manager)
    (sched : list nat) (now : Z) :
  all_or_nothing →
  IsOffline g = false →
  cache g = Some c →
  retrieverManager g = Some rm →
  ∃ c' err g',
    retrieveFlagsAndUpdateCache (config g) (Some c) (Some rm) sched now
      = Done (Some c', err, retrieved (GetRetrievers rm))
    ∧ ForceRefresh g sched now
      = Done (bool_decide (err = None), g', retrieved (GetRetrievers rm))
    ∧ cache g' = Some c'
    ∧ (err ≠ None → g' = g).
Proof.
  intros Hlaw Hoff Hc Hrm. unfold ffclient.ForceRefresh.
  rewrite Hoff, Hc, Hrm.
  destruct (retrieveFlagsAndUpdateCache (config g) (Some c) (Some rm)
              sched now) as [[[c1 err] contacted]|] eqn:Hcycle.
  - assert (contacted = retrieved (GetRetrievers rm) ∧ is_Some c1)
      as [-> [c' ->]].
    { revert Hcycle. unfold ffclient.retrieveFlagsAndUpdateCache.
      destruct (ffclient.fetchAndMerge _ _ _ _); [by intros [= <- _ <-]|].
      destruct (cache.UpdateCache _ _ _). by intros [= <- _ <-]. }
    exists c', err. simpl. destruct err as [e|]; eexists;
      (split; [done|]); (split; [done|]); (split; [done|]); [|done].
    intros _. apply cycle_failure_keeps_cache in Hcycle as ->; [|done].
    rewrite <- Hc, <- Hrm. apply GoFeatureFlag_eta.
  - revert Hcycle. unfold ffclient.retrieveFlagsAndUpdateCache.
    destruct (ffclient.fetchAndMerge _ _ _ _); [done|].
    by destruct (cache.UpdateCache _ _ _).
Qed.

(** C5 on the code.  An instance that [New] built in offline mode holds
    neither cache nor retriever manager; once [SetOffline(false)] has put
    it online, [ForceRefresh] neither returns false nor true: it
    dereferences nil. *)
Theorem ForceRefresh_after_offline_New (config : Config)
    (sched sched' : list nat) (now now' : Z) (g : GoFeatureFlag) :
  Offline config = true →
  New config sched now = Done (Some g, None) →
  IsOffline (SetOffline g false) = false
  ∧ ForceRefresh (SetOffline g false) sched' now' = Panic.
Proof.
  intros Hoff. unfold ffclient.New.
  destruct (New_pollingInterval (PollingInterval config)); [done|].
  simpl. rewrite Hoff. by intros [= <-].
Qed.

(** *** Teardown *)

(** C8 as the code has it.  [Close] issues its teardown calls in the
    order cache, background updater, data exporter, retriever manager,
    each one exactly when the instance holds the component. *)
Theorem Close_teardown_order (g : GoFeatureFlag) :
  (Close (Some g)).1
    `sublist_of` [CacheClose; UpdaterClose; ExporterClose; ManagerShutdown]
  ∧ (CacheClose ∈ (Close (Some g)).1 ↔ is_Some (cache g))
  ∧ (UpdaterClose ∈ (Close (Some g)).1
     ↔ updaterStarted (bgUpdater g) = true)
  ∧ (ExporterClose ∈ (Close (Some g)).1 ↔ is_Some (dataExporter g))
  ∧ (ManagerShutdown ∈ (Close (Some g)).1
     ↔ is_Some (retrieverManager g)).
Proof.
  unfold ffclient.Close.
  destruct (cache g), (updaterStarted (bgUpdater g)), (dataExporter g),
    (retrieverManager g); simpl;
    (split;
     [repeat first [apply sublist_nil | apply sublist_skip
                   | apply sublist_cons]
     |rewrite ?elem_of_cons, ?elem_of_nil, ?is_Some_alt;
      repeat split; intros; try done;
      repeat match goal with H : _ ∨ _ |- _ => destruct H end;
      try done; auto 6]).
Qed.

(** The package-level [Close] forwards to the method on [ff]. *)
Lemma Package_Close_forwards (p : Package) :
  (Package_Close p).1 = (Close (ff p)).1
  ∧ ff (Package_Close p).2 = (Close (ff p)).2
  ∧ onceFF (Package_Close p).2 = false.
Proof. unfold ffclient.Package_Close. by destruct (Close (ff p)). Qed.

(** [Close] completes exactly when none of the calls it issues panics. *)
Lemma Close_outcome_Done (panics : Call → bool) (g : option GoFeatureFlag) :
  Close_outcome panics g = Done (Close g)
  ↔ ∀ call, call ∈ (Close g).1 → panics call = false.
Proof.
  unfold ffclient.Close_outcome.
  destruct (existsb panics (Close g).1) eqn:Hex.
  - split; [done|]. intros Hnone.
    apply existsb_exists in Hex as (call & Hin & Hcall).
    apply list_elem_of_In in Hin. by rewrite (Hnone call Hin) in Hcall.
  - split; [|done]. intros _ call Hin.
    destruct (panics call) eqn:Hcall; [|done].
    rewrite <- Hex. symmetry. apply existsb_exists. exists call.
    split; [by apply list_elem_of_In|done].
Qed.

Lemma Close_outcome_Panic (panics : Call → bool) (g : option GoFeatureFlag) :
  Close_outcome panics g = Panic
  ↔ ∃ call, call ∈ (Close g).1 ∧ panics call = true.
Proof.
  unfold ffclient.Close_outcome.
  destruct (existsb panics (Close g).1) eqn:Hex.
  - split; [|done]. intros _.
    apply existsb_exists in Hex as (call & Hin & Hcall).
    exists call. split; [by apply list_elem_of_In|done].
  - split; [done|]. intros (call & Hin & Hcall).
    assert (existsb panics (Close g).1 = true) as Htrue.
    { apply existsb_exists. exists call.
      split; [by apply list_elem_of_In|done]. }
    by rewrite Hex in Htrue.
Qed.

(** The calls of a second [Close], from the calls of the first. *)
Lemma Close_again_calls (g : option GoFeatureFlag) :
  let first := Close g in
  let second := Close first.2 in
  (g = None → first.1 = [] ∧ second.1 = [])
  ∧ (∀ call, call ≠ UpdaterClose → call ∈ second.1 ↔ call ∈ first.1)
  ∧ (∀ g0, g = Some g0 →
       UpdaterClose ∈ second.1
       ↔ UpdaterClose ∈ first.1
         ∧ updaterStarted (bgUpdater_close (bgUpdater g0)) = true)
  ∧ (first.1 = [] → second.1 = []).
Proof.
  destruct g as [g|]; [|by repeat split].
  unfold ffclient.Close.
  destruct (cache g), (updaterStarted (bgUpdater g)) eqn:Hbg,
    (dataExporter g), (retrieverManager g); simpl;
    try rewrite Hbg;
    try destruct (updaterStarted (bgUpdater_close (bgUpdater g))) eqn:Hbg2;
    simpl; (split; [done|]); (split; [|split]);
    try done; try (intros g0 [= <-]; rewrite ?Hbg2); calls_membership.
Qed.


End facts.

(** *** The theorems on concrete inputs *)

Import fixtures.

Lemma completes_swapped (a b : Retriever) : completes [a; b] [1; 0]%nat.
Proof. unfold completes. simpl. apply perm_swap. Qed.

Lemma completes_in_order (retrievers : list Retriever) :
  completes retrievers (seq 0 (length retrievers)).
Proof. by unfold completes. Qed.

(** Scenario 1 of the spec, source B completing first: the merged set
    gives ["a"] the value of source B. *)
Lemma highest_index_source_wins_witness :
  ∃ newFlags : gmap string Z,
    fetchAndMerge convert "yaml" [sourceA; sourceB] [1; 0]%nat = inr newFlags
    ∧ newFlags !! "a" = Some 2
    ∧ retrieveFlagsAndUpdateCache convert
        (configOf Second false false [sourceA; sourceB])
        (Some cache.New) (Some (NewManager [sourceA; sourceB]))
        [1; 0]%nat 7
      = Done (Some (cache.UpdateCache cache.New newFlags 7).1,
              (cache.UpdateCache cache.New newFlags 7).2,
              retrieved [sourceA; sourceB]).
Proof.
  apply (highest_index_source_wins convert
           (configOf Second false false [sourceA; sourceB])
           cache.New (NewManager [sourceA; sourceB]) [1; 0]%nat 7
           1%nat (retrieverTask convert sourceB "yaml" 1) "a" 2).
  - apply completes_swapped.
  - intros t' Ht'. simpl in Ht'.
    apply elem_of_cons in Ht' as [->|Ht']; [done|].
    apply elem_of_cons in Ht' as [->|Ht']; [done|].
    by apply elem_of_nil in Ht'.
  - done.
  - by vm_compute.
  - intros [|[|[|j]]] t' Hj Ht'; simpl in Ht'; try done; lia.
Defined.

Lemma merged_set_independent_of_completion_order_witness :
  match fetchAndMerge convert "yaml" [sourceA; sourceB] [0; 1]%nat,
        fetchAndMerge convert "yaml" [sourceA; sourceB] [1; 0]%nat with
  | inr flags1, inr flags2 =>
      flags1 = flags2
      ∧ flags1 = mergeFlags (Value <$> launch convert "yaml" [sourceA; sourceB])
  | inl _, inl _ => True
  | _, _ => False
  end.
Proof.
  apply (merged_set_independent_of_completion_order convert "yaml"
           [sourceA; sourceB] [0; 1]%nat [1; 0]%nat).
  - apply (completes_in_order [sourceA; sourceB]).
  - apply completes_swapped.
Defined.

Lemma not_ready_source_contributes_nothing_witness :
  launch convert "yaml" [sourceA; handshaking; sourceB] !! 1%nat
    = Some {| Error := None; Value := ∅; Index := 1 |}
  ∧ (1%nat ∉ retrieved [sourceA; handshaking; sourceB])
  ∧ (match fetchAndMerge convert "yaml" [sourceA; handshaking; sourceB]
             [0; 1; 2]%nat with
     | inl err =>
         ∃ j t, j ≠ 1%nat
                ∧ launch convert "yaml" [sourceA; handshaking; sourceB] !! j
                  = Some t
                ∧ Error t = Some err
     | inr newFlags =>
         newFlags
         = mergeFlags
             (delete 1%nat
                (Value <$> launch convert "yaml"
                             [sourceA; handshaking; sourceB]))
     end).
Proof.
  apply (not_ready_source_contributes_nothing convert "yaml"
           [sourceA; handshaking; sourceB] [0; 1; 2]%nat 1%nat
           handshaking RetrieverNotReady).
  - apply (completes_in_order [sourceA; handshaking; sourceB]).
  - done.
  - done.
  - done.
Defined.

Lemma memCache_all_or_nothing : @all_or_nothing Z memCache _.
Proof. intros c c' flags now err. simpl. by intros [= _]. Qed.

(** Scenario 4 of the spec: three sources, the one of index 1 fails. *)
Lemma hard_error_keeps_cache_witness :
  let g := liveInstance [sourceA; unreachable; sourceB] in
  ∃ err j t',
    launch convert "yaml" [sourceA; unreachable; sourceB] !! j = Some t'
    ∧ Error t' = Some err
    ∧ retrieveFlagsAndUpdateCache convert (config g) (cache g)
        (retrieverManager g) [2; 0; 1]%nat 9
      = Done (cache g, Some err, retrieved [sourceA; unreachable; sourceB])
    ∧ ∃ contacted, ForceRefresh convert g [2; 0; 1]%nat 9
                   = Done (false, g, contacted).
Proof.
  apply (hard_error_keeps_cache convert
           (liveInstance [sourceA; unreachable; sourceB])
           {| snapshot := {["a" := 1]}; latestUpdate := 3 |}
           (NewManager [sourceA; unreachable; sourceB]) [2; 0; 1]%nat 9
           1%nat (retrieverTask convert unreachable "yaml" 1)).
  - done.
  - done.
  - unfold completes. simpl.
    apply (Permutation_cons_append [0; 1]%nat 2%nat).
  - done.
  - done.
Defined.

(** When several sources fail, the error returned is the one that
    arrives first. *)
Example first_error_arrived_is_returned :
  fetchAndMerge convert "yaml" [unreachable; forbidden] [0; 1]%nat
    = inl (errorString "unreachable")
  ∧ fetchAndMerge convert "yaml" [unreachable; forbidden] [1; 0]%nat
    = inl (errorString "forbidden").
Proof. by vm_compute. Qed.

(** A configuration that permits starting on a source error: [New]
    returns an instance whose cache is the fresh one. *)
Lemma New_when_first_cycle_fails_witness :
  ∃ g : GoFeatureFlag memCache,
    New convert initOk (configOf 500000000 false true [sourceA; unreachable])
        [0; 1]%nat 7
    = Done (Some g, None)
    ∧ cache g = Some cache.New
    ∧ retrieverManager g = Some (NewManager [sourceA; unreachable]).
Proof.
  apply (New_when_first_cycle_fails convert initOk
           (configOf 500000000 false true [sourceA; unreachable])
           [0; 1]%nat 7 Second [sourceA; unreachable]
           (NewManager [sourceA; unreachable]) None (Some cache.New)
           (errorString "unreachable") [0; 1]%nat).
  - apply memCache_all_or_nothing.
  - done.
  - done.
  - done.
  - done.
  - by left.
  - by vm_compute.
Defined.

(** The same failing cycle without the option: no instance. *)
Example New_first_cycle_fails_strict :
  New convert initOk (configOf 500000000 false false [sourceA; unreachable])
      [0; 1]%nat 7
  = (Done (None, Some (errRetrieveFlags (errorString "unreachable")))
     : run (option (GoFeatureFlag memCache) * option error)).
Proof. by vm_compute. Qed.

(** Scenario 2 of the spec: 500ms becomes one second. *)
Example New_clamps_half_a_second :
  ∃ g : GoFeatureFlag memCache,
    New convert initOk (configOf 500000000 false false [sourceA; sourceB])
        [0; 1]%nat 7 = Done (Some g, None)
    ∧ PollingInterval (config g) = Second
    ∧ ticker (bgUpdater g) = Some Second.
Proof. eexists. split; [by vm_compute|done]. Qed.

(** Built offline, put online, refreshed. *)
Lemma ForceRefresh_after_offline_New_witness :
  IsOffline (SetOffline (offlineInstance [sourceA; sourceB]) false) = false
  ∧ ForceRefresh convert
      (SetOffline (offlineInstance [sourceA; sourceB]) false) [0; 1]%nat 9
    = Panic.
Proof.
  apply (ForceRefresh_after_offline_New convert initOk
           (configOf Second true false [sourceA; sourceB])
           [0; 1]%nat [0; 1]%nat 7 9 (offlineInstance [sourceA; sourceB])).
  - done.
  - by vm_compute.
Defined.

(** Scenario 5 of the spec: offline, [ForceRefresh] answers false and no
    source is contacted. *)
Example ForceRefresh_offline_contacts_nobody :
  ForceRefresh convert (SetOffline (liveInstance [sourceA; sourceB]) true)
               [0; 1]%nat 9
  = Done (false, SetOffline (liveInstance [sourceA; sourceB]) true, []).
Proof. by apply ForceRefresh_offline. Qed.

(** C8 as stated fails: on an instance that [New] built with all its
    components, [Close] closes the cache before it stops the background
    updater. *)
Lemma Close_order_counterexample :
  ∃ g : GoFeatureFlag memCache,
    New convert initOk (configOf Second false false [sourceA; sourceB])
        [0; 1]%nat 7 = Done (Some g, None)
    ∧ (Close keepFields (Some g)).1
      = [CacheClose; UpdaterClose; ExporterClose; ManagerShutdown]
    ∧ (Close keepFields (Some g)).1
      ≠ [UpdaterClose; CacheClose; ExporterClose; ManagerShutdown].
Proof. eexists. split; [by vm_compute|]. split; [done|]. by simpl. Qed.


(** A cycle on a nil cache panics at the conversion of the first source
    that was fetched. *)
Example cycle_on_nil_cache :
  retrieveFlagsAndUpdateCache convert
    (configOf Second false false [sourceA; sourceB])
    (None : option memCache) (Some (NewManager [sourceA; sourceB]))
    [0; 1]%nat 7
  = Panic.
Proof. done. Qed.

End ffclient_facts.

(** * Properties of the relay-proxy API keys *)
Module relayproxy_facts.
Import relayproxy.

Lemma elem_of_addKeys (keys : list string) (set : gset string)
    (k : string) :
  k ∈ addKeys set keys ↔ k ∈ set ∨ k ∈ keys.
Proof.
  unfold addKeys. revert set.
  induction keys as [|key keys IH]; intros set; simpl.
  - rewrite elem_of_nil. tauto.
  - rewrite IH, elem_of_union, elem_of_singleton, elem_of_cons. tauto.
Qed.

(** On a configuration whose admin set is not built yet, the answer of
    [APIKeysAdminExists] is membership in [AuthorizedKeys.Admin]. *)
Lemma APIKeysAdminExists_fresh (c : Config) (k : string) :
  adminAPIKeySet c = None →
  (APIKeysAdminExists c k).1 = true ↔ k ∈ Admin (AuthorizedKeys c).
Proof.
  intros Hnil. unfold APIKeysAdminExists. rewrite Hnil. simpl.
  rewrite bool_decide_eq_true, elem_of_addKeys, elem_of_empty. tauto.
Qed.

(** Once built, the admin set is kept: asking again gives the answer that
    the first configuration gives. *)
Lemma APIKeysAdminExists_again (c : Config) (k k' : string) :
  (APIKeysAdminExists (APIKeysAdminExists c k').2 k).1
  = (APIKeysAdminExists c k).1.
Proof. unfold APIKeysAdminExists. simpl. by destruct (adminAPIKeySet c). Qed.

(** C10.  A key for which [APIKeysAdminExists] answers true is accepted by
    [APIKeyExists], on the same configuration and on the configuration
    that the first call left behind. *)
Theorem admin_key_is_api_key (c : Config) (k : string) :
  (APIKeysAdminExists c k).1 = true →
  (APIKeyExists c k).1 = true
  ∧ (APIKeyExists (APIKeysAdminExists c k).2 k).1 = true.
Proof.
  intros Hadmin.
  assert (∀ c0, (APIKeysAdminExists c0 k).1 = true →
                (APIKeyExists c0 k).1 = true) as Hstep.
  { intros c0 H0. unfold APIKeyExists.
    destruct (APIKeysAdminExists c0 k) as [isAdmin c1]. simpl in H0.
    by rewrite H0. }
  split; [by apply Hstep|].
  apply Hstep. by rewrite APIKeysAdminExists_again.
Qed.

Lemma admin_key_is_api_key_witness :
  (APIKeysAdminExists fixtures.proxyConfig "root").1 = true
  ∧ (APIKeyExists fixtures.proxyConfig "root").1 = true
  ∧ (APIKeyExists (APIKeysAdminExists fixtures.proxyConfig "root").2
                  "root").1 = true.
Proof.
  split; [by vm_compute|].
  apply (admin_key_is_api_key fixtures.proxyConfig "root"). by vm_compute.
Defined.

(** A listed admin key of a fresh configuration is an API key. *)
Lemma listed_admin_key_is_api_key (c : Config) (k : string) :
  adminAPIKeySet c = None →
  k ∈ Admin (AuthorizedKeys c) →
  (APIKeyExists c k).1 = true.
Proof.
  intros Hnil Hk. apply APIKeysAdminExists_fresh in Hk; [|done].
  unfold APIKeyExists. destruct (APIKeysAdminExists c k) as [isAdmin c1].
  simpl in Hk. by rewrite Hk.
Qed.

End relayproxy_facts.

(** * Further properties of [ffclient] *)
Module ffclient_more.
Import retriever ffclient ffclient_facts.

Section more.

Context {DTO C : Type} `{!cache.Manager DTO C}.
Variable ConvertToFlagStruct :
  list Byte.byte → string → gmap string DTO * option error.
Variable bgUpdater_close : backgroundUpdater → backgroundUpdater.
Variable Manager_Init : Manager → Manager * option error.

Local Abbreviation Results := (Results DTO).
Local Abbreviation GoFeatureFlag := (GoFeatureFlag C).
Local Abbreviation Package := (Package C).
Local Abbreviation all_or_nothing := (@all_or_nothing DTO C _).
Local Abbreviation launch := (launch ConvertToFlagStruct).
Local Abbreviation fetchAndMerge := (fetchAndMerge ConvertToFlagStruct).
Local Abbreviation retrieveFlagsAndUpdateCache :=
  (retrieveFlagsAndUpdateCache ConvertToFlagStruct).
Local Abbreviation New := (New ConvertToFlagStruct Manager_Init).
Local Abbreviation ForceRefresh := (ForceRefresh ConvertToFlagStruct).
Local Abbreviation Close := (Close bgUpdater_close).
Local Abbreviation Package_Close := (Package_Close bgUpdater_close).
Local Abbreviation Init := (Init ConvertToFlagStruct Manager_Init).
Local Abbreviation Package_ForceRefresh :=
  (Package_ForceRefresh ConvertToFlagStruct).
Local Abbreviation updaterTick := (updaterTick ConvertToFlagStruct).
Local Abbreviation startFlagUpdaterDaemon :=
  (startFlagUpdaterDaemon ConvertToFlagStruct).

(** *** The merged set *)

(** Merging a list of slots in two batches. *)
Lemma mergeFlags_app (slots1 slots2 : list (gmap string DTO)) :
  mergeFlags (slots1 ++ slots2) = mergeFlags slots2 ∪ mergeFlags slots1.
Proof.
  induction slots2 as [|flags slots2 IH] using rev_ind.
  - rewrite app_nil_r. unfold mergeFlags at 2. simpl.
    by rewrite (left_id_L ∅ (∪)).
  - rewrite app_assoc, !mergeFlags_snoc, IH. by rewrite (assoc_L (∪)).
Qed.

(** The keys of the merged set are the keys of the sources, and no other. *)
Theorem dom_mergeFlags (slots : list (gmap string DTO)) :
  dom (mergeFlags slots) = ⋃ (dom <$> slots).
Proof.
  induction slots as [|flags slots IH] using rev_ind; [done|].
  rewrite mergeFlags_snoc, dom_union_L, IH, fmap_app, union_list_app_L.
  simpl. rewrite (right_id_L ∅ (∪)). apply (comm_L (∪)).
Qed.

(** Two groups of sources that share no key can be merged in either
    order. *)
Theorem mergeFlags_disjoint_groups (slots1 slots2 : list (gmap string DTO)) :
  (∀ flags1 flags2, flags1 ∈ slots1 → flags2 ∈ slots2 → flags1 ##ₘ flags2) →
  mergeFlags (slots1 ++ slots2) = mergeFlags (slots2 ++ slots1).
Proof.
  intros Hdisj. rewrite !mergeFlags_app. apply map_union_comm.
  apply map_disjoint_dom. rewrite !dom_mergeFlags.
  intros k. rewrite !elem_of_union_list.
  intros (d2 & Hd2 & Hk2) (d1 & Hd1 & Hk1).
  apply list_elem_of_fmap in Hd2 as (flags2 & -> & Hin2).
  apply list_elem_of_fmap in Hd1 as (flags1 & -> & Hin1).
  pose proof (Hdisj _ _ Hin1 Hin2) as Hd. apply map_disjoint_dom in Hd.
  by apply (Hd k).
Qed.

(** *** Construction *)

(** A cycle that is given a cache and a manager does not panic. *)
Lemma cycle_with_handles (config : Config) (c : C) (rm : Manager)
    (sched : list nat) (now : Z) :
  ∃ c' err,
    retrieveFlagsAndUpdateCache config (Some c) (Some rm) sched now
    = Done (Some c', err, retrieved (GetRetrievers rm)).
Proof.
  unfold ffclient.retrieveFlagsAndUpdateCache.
  destruct (ffclient.fetchAndMerge _ _ _ _); [by eexists _, _|].
  destruct (cache.UpdateCache _ _ _). by eexists _, _.
Qed.

(** [New] never panics, and it returns either an instance and no error or
    an error and no instance. *)
Theorem New_instance_or_error (config : Config) (sched : list nat) (now : Z) :
  (∃ g, New config sched now = Done (Some g, None))
  ∨ (∃ err, New config sched now = Done (None, Some err)).
Proof.
  unfold ffclient.New.
  destruct (New_pollingInterval (PollingInterval config)) as [e|interval];
    [right; by eexists|].
  simpl. destruct (Offline config); [left; by eexists|].
  destruct (Config_GetRetrievers config) as [e|retrievers];
    [right; by eexists|].
  destruct (Manager_Init (NewManager retrievers)) as [rm initErr].
  destruct (cycle_with_handles (Config_setPollingInterval config interval)
              cache.New rm sched now) as (c' & err & Hcycle).
  destruct initErr, (StartWithRetrieverError config);
    try (right; by eexists); rewrite Hcycle; simpl;
    destruct err; try (left; by eexists); right; by eexists.
Qed.

(** The errors of [New], exactly.  [New] returns an error, and no
    instance, in these cases and in no other: the polling interval is
    negative, and the error names it; the configuration is online and
    [GetRetrievers] fails, and the error is the one it returned, as it is;
    the configuration is online, [StartWithRetrieverError] is not set and
    [Init] of the retriever manager fails, and the error wraps the error of
    [Init] (lines 96-99); the configuration is online,
    [StartWithRetrieverError] is not set, [Init] succeeds and the first
    refresh cycle returns an error, and the error wraps the error of that
    cycle (lines 101-104). *)
Theorem New_errors (config : Config) (sched : list nat) (now : Z)
    (err : error) :
  New config sched now = Done (None, Some err)
  ↔ (PollingInterval config < 0
     ∧ err = errInvalidPollingInterval (PollingInterval config))
    ∨ (0 ≤ PollingInterval config ∧ Offline config = false
       ∧ Config_GetRetrievers config = inl err)
    ∨ (0 ≤ PollingInterval config ∧ Offline config = false
       ∧ StartWithRetrieverError config = false
       ∧ ∃ retrievers cause,
           Config_GetRetrievers config = inr retrievers
           ∧ (((Manager_Init (NewManager retrievers)).2 = Some cause
               ∧ err = errInitRetrievers cause)
              ∨ ((Manager_Init (NewManager retrievers)).2 = None
                 ∧ err = errRetrieveFlags cause
                 ∧ ∃ interval c' contacted,
                     New_pollingInterval (PollingInterval config)
                     = inr interval
                     ∧ retrieveFlagsAndUpdateCache
                         (Config_setPollingInterval config interval)
                         (Some cache.New)
                         (Some (Manager_Init (NewManager retrievers)).1)
                         sched now
                       = Done (c', Some cause, contacted)))).
Proof.
  assert (∀ interval,
    New_pollingInterval (PollingInterval config) = inr interval →
    0 ≤ PollingInterval config) as Hsign.
  { unfold New_pollingInterval. intros interval.
    destruct (Z.eqb_spec (PollingInterval config) 0); [lia|].
    destruct (Z.ltb_spec (PollingInterval config) 0); [done|lia]. }
  assert (∀ e, New_pollingInterval (PollingInterval config) = inl e →
    PollingInterval config < 0
    ∧ e = errInvalidPollingInterval (PollingInterval config)) as Hneg.
  { unfold New_pollingInterval. intros e.
    destruct (Z.eqb_spec (PollingInterval config) 0); [done|].
    destruct (Z.ltb_spec (PollingInterval config) 0);
      [by intros [= <-]|].
    by destruct (PollingInterval config <? Second). }
  unfold ffclient.New.
  destruct (New_pollingInterval (PollingInterval config))
    as [e|interval] eqn:Hinterval.
  - destruct (Hneg e eq_refl) as [Hlt ->]. split.
    + intros [= <-]. by left.
    + intros [[_ ->]|[(Hge & _)|(Hge & _)]]; [done|lia|lia].
  - specialize (Hsign interval eq_refl). simpl.
    destruct (Offline config).
    { split; [done|].
      intros [[Hlt _]|[(_ & Hoff & _)|(_ & Hoff & _)]]; [lia|done|done]. }
    destruct (Config_GetRetrievers config) as [e|retrievers].
    { split.
      - intros [= <-]. right. by left.
      - intros [[Hlt _]|[(_ & _ & [= <-])|(_ & _ & _ & ? & ? & ? & _)]];
          [lia|done|done]. }
    destruct (Manager_Init (NewManager retrievers)) as [rm initErr] eqn:Hinit.
    destruct (cycle_with_handles (Config_setPollingInterval config interval)
                cache.New rm sched now) as (c' & cerr & Hcycle).
    split.
    + intros Hnew. right. right.
      destruct (StartWithRetrieverError config).
      { destruct initErr; rewrite Hcycle in Hnew; simpl in Hnew;
          by destruct cerr. }
      do 3 (split; [done|]). exists retrievers. rewrite Hinit. simpl.
      destruct initErr as [e|].
      * injection Hnew as <-. exists e. split; [done|]. by left.
      * rewrite Hcycle in Hnew. simpl in Hnew.
        destruct cerr as [ce|]; [|done]. injection Hnew as <-.
        exists ce. split; [done|]. right. do 2 (split; [done|]).
        by exists interval, (Some c'), (retrieved (GetRetrievers rm)).
    + intros [[Hlt _]|[(_ & _ & ?)|(_ & _ & Hstart & rs & cause & [= <-] & Hcase)]];
        [lia|done|].
      rewrite Hstart. rewrite Hinit in Hcase. simpl in Hcase.
      destruct Hcase as [[-> ->]|(-> & -> & i' & c2 & contacted & [= <-] & Hrun)];
        [done|].
      rewrite Hrun. done.
Qed.


(** The components of an instance that [New] built online. *)
Lemma New_online_components (config : Config) (sched : list nat) (now : Z)
    (g : GoFeatureFlag) :
  Offline config = false →
  New config sched now = Done (Some g, None) →
  ∃ interval c' rm,
    cache g = Some c'
    ∧ bgUpdater g = newBackgroundUpdater interval (EnablePollingJitter config)
    ∧ dataExporter g = New_dataExporter (DataExporterConf config)
    ∧ retrieverManager g = Some rm.
Proof.
  intros Hoff. unfold ffclient.New.
  destruct (New_pollingInterval (PollingInterval config))
    as [e|interval]; [done|].
  simpl. rewrite Hoff.
  destruct (Config_GetRetrievers config) as [e|retrievers]; [done|].
  destruct (Manager_Init (NewManager retrievers)) as [rm initErr].
  destruct (cycle_with_handles (Config_setPollingInterval config interval)
              cache.New rm sched now) as (c' & err & Hcycle).
  destruct initErr, (StartWithRetrieverError config);
    try done; rewrite Hcycle; simpl; destruct err; try done;
    intros [= <-]; by exists interval, c', rm.
Qed.

(** An instance built in offline mode holds no component: its [Close]
    issues no call, and its refresh date is the zero time. *)
Theorem New_offline_is_bare (config : Config) (sched : list nat) (now : Z)
    (g : GoFeatureFlag) :
  Offline config = true →
  New config sched now = Done (Some g, None) →
  cache g = None ∧ retrieverManager g = None ∧ dataExporter g = None
  ∧ bgUpdater g = backgroundUpdater_zero
  ∧ (Close (Some g)).1 = []
  ∧ GetCacheRefreshDate g = Done 0.
Proof.
  intros Hoff. unfold ffclient.New.
  destruct (New_pollingInterval (PollingInterval config)); [done|].
  simpl. rewrite Hoff. intros [= <-].
  unfold GetCacheRefreshDate. simpl. by rewrite Hoff.
Qed.

(** On an instance built online, [Close] closes the cache, stops the
    updater, closes the exporter if one was configured, and shuts the
    retriever manager down, in that order. *)
Theorem New_online_then_Close (config : Config) (sched : list nat) (now : Z)
    (g : GoFeatureFlag) :
  Offline config = false →
  New config sched now = Done (Some g, None) →
  (Close (Some g)).1
  = [CacheClose; UpdaterClose]
    ++ match Exporter (DataExporterConf config) with
       | Some _ => [ExporterClose]
       | None => []
       end
    ++ [ManagerShutdown].
Proof.
  intros Hoff Hnew.
  destruct (New_online_components _ _ _ _ Hoff Hnew)
    as (interval & c' & rm & Hc & Hbg & Hexp & Hrm).
  unfold ffclient.Close. rewrite Hc, Hbg, Hexp, Hrm. simpl.
  unfold New_dataExporter. by destruct (Exporter (DataExporterConf config)).
Qed.

(** The polling interval that an instance reports is at least 1000
    milliseconds; it is 60000 for a configured interval of zero and the
    configured interval, in whole milliseconds, from one second on. *)
Theorem GetPollingInterval_of_New (config : Config) (sched : list nat)
    (now : Z) (g : GoFeatureFlag) :
  New config sched now = Done (Some g, None) →
  1000 ≤ GetPollingInterval g
  ∧ (PollingInterval config = 0 → GetPollingInterval g = 60000)
  ∧ (Second ≤ PollingInterval config →
     GetPollingInterval g = PollingInterval config ÷ 1000000).
Proof.
  intros Hnew.
  destruct (New_Some_config _ _ _ _ _ _ Hnew) as (interval & Hint & Hcfg).
  unfold GetPollingInterval. rewrite Hcfg. simpl.
  unfold New_pollingInterval, Second in *.
  destruct (Z.eqb_spec (PollingInterval config) 0) as [Hz|Hz];
    [|destruct (Z.ltb_spec (PollingInterval config) 0);
      [done|destruct (Z.ltb_spec (PollingInterval config) 1000000000)]];
    injection Hint as <-.
  - change (60 * 1000000000 ÷ 1000000) with 60000.
    repeat split; intros; lia.
  - change (1000000000 ÷ 1000000) with 1000.
    repeat split; intros; lia.
  - repeat split; intros; try lia.
    apply Z.quot_le_lower_bound; lia.
Qed.

(** *** Forced refresh and the daemon *)

(** Whenever [ForceRefresh] returns false, the instance is what it was:
    its cache, and so its refresh date, are unchanged. *)
Theorem ForceRefresh_false_keeps_instance (g g' : GoFeatureFlag)
    (sched : list nat) (now : Z) (contacted : list nat) :
  all_or_nothing →
  ForceRefresh g sched now = Done (false, g', contacted) →
  g' = g.
Proof.
  intros Hlaw. unfold ffclient.ForceRefresh.
  destruct (IsOffline g); [by intros [= <- _]|].
  destruct (retrieveFlagsAndUpdateCache (config g) (cache g)
              (retrieverManager g) sched now)
    as [[[c1 [e|]] l]|] eqn:Hcycle; simpl; [|done..].
  intros [= <- _].
  rewrite (cycle_failure_keeps_cache _ _ _ _ _ _ _ _ _ Hlaw Hcycle).
  apply GoFeatureFlag_eta.
Qed.

(** Whenever [ForceRefresh] returns true, the instance was online, every
    ready source was contacted, no source failed, and the cache is the one
    that [UpdateCache] made of the merge of the sources' flags. *)
Theorem ForceRefresh_true_installs_merge (g g' : GoFeatureFlag)
    (sched : list nat) (now : Z) (contacted : list nat) :
  ForceRefresh g sched now = Done (true, g', contacted) →
  ∃ c c' rm,
    IsOffline g = false
    ∧ cache g = Some c ∧ retrieverManager g = Some rm
    ∧ cache g' = Some c'
    ∧ contacted = retrieved (GetRetrievers rm)
    ∧ (completes (GetRetrievers rm) sched →
       (∀ t, t ∈ launch (FileFormat (config g)) (GetRetrievers rm) →
             Error t = None)
       ∧ cache.UpdateCache c
           (mergeFlags
              (Value <$> launch (FileFormat (config g)) (GetRetrievers rm)))
           now
         = (c', None)).
Proof.
  unfold ffclient.ForceRefresh.
  destruct (IsOffline g); [done|].
  unfold ffclient.retrieveFlagsAndUpdateCache.
  destruct (retrieverManager g) as [rm|]; [|done].
  destruct (cache g) as [c|];
    [|destruct (existsb reachesConversion (GetRetrievers rm)); [done|];
      by destruct (ffclient.fetchAndMerge _ _ _ _)].
  destruct (ffclient.fetchAndMerge _ _ _ _) as [e|flags] eqn:Hf; [done|].
  destruct (cache.UpdateCache c flags now) as [c' [e|]] eqn:Hu; [done|].
  simpl. intros [= <- <-]. exists c, c', rm. do 5 (split; [done|]).
  intros Hs. by destruct (fetchAndMerge_ok_inv _ _ _ _ _ Hs Hf) as [Hok <-].
Qed.

(** A tick of the daemon does to the instance, and asks of the sources,
    what [ForceRefresh] does at the same moment. *)
Theorem updaterTick_as_ForceRefresh (g : GoFeatureFlag) (sched : list nat)
    (now : Z) :
  match ForceRefresh g sched now with
  | Done (_, g', contacted) => updaterTick g sched now = Done (g', contacted)
  | Panic => updaterTick g sched now = Panic
  end.
Proof.
  unfold ffclient.ForceRefresh, ffclient.updaterTick.
  destruct (IsOffline g); [done|].
  destruct (ffclient.retrieveFlagsAndUpdateCache _ _ _ _ _ _)
    as [[[c1 [e|]] l]|]; done.
Qed.


Lemma updaterTick_keeps_settings (g g' : GoFeatureFlag) (sched : list nat)
    (now : Z) (contacted : list nat) :
  updaterTick g sched now = Done (g', contacted) →
  bgUpdater g' = bgUpdater g ∧ config g' = config g.
Proof.
  unfold ffclient.updaterTick. destruct (IsOffline g); [by intros [= <- _]|].
  destruct (ffclient.retrieveFlagsAndUpdateCache _ _ _ _ _ _); [|done].
  simpl. by intros [= <- _].
Qed.

(** Once the stop signal has been received, no later wake-up is processed:
    the daemon has returned. *)
Theorem daemon_stops_at_stop_signal (g : GoFeatureFlag)
    (before after : list Wakeup) :
  is_Some (updaterChan (bgUpdater g)) →
  startFlagUpdaterDaemon g (before ++ Stop :: after)
  = startFlagUpdaterDaemon g (before ++ [Stop])
  ∧ ∀ g' contacted returned,
      startFlagUpdaterDaemon g (before ++ [Stop])
      = Done (g', contacted, returned) →
      returned = true.
Proof.
  revert g. induction before as [|[sched now|] before IH]; intros g [u Hu].
  - simpl. destruct (ticker (bgUpdater g)); [|done]. rewrite Hu.
    split; [done|]. by intros g' l b [= _ _ <-].
  - simpl. destruct (ticker (bgUpdater g)); [|done].
    destruct (updaterTick g sched now) as [[g1 l1]|] eqn:Htick; [|done].
    simpl. destruct (updaterTick_keeps_settings _ _ _ _ _ Htick) as [Hbg _].
    destruct (IH g1) as [-> Hret]; [by rewrite Hbg, Hu|].
    split; [done|]. intros g' l b.
    destruct (startFlagUpdaterDaemon g1 (before ++ [Stop]))
      as [[[g2 l2] b2]|] eqn:Hd; [|done].
    simpl. intros [= _ _ <-]. by eapply Hret.
  - simpl. destruct (ticker (bgUpdater g)); [|done]. rewrite Hu.
    split; [done|]. by intros g' l b [= _ _ <-].
Qed.

(** While the instance is offline, the daemon contacts no source and
    leaves the instance as it is, whatever wakes it up. *)
Theorem daemon_offline_is_idle (g : GoFeatureFlag) (wakeups : list Wakeup) :
  IsOffline g = true →
  is_Some (ticker (bgUpdater g)) →
  ∃ contacted returned,
    startFlagUpdaterDaemon g wakeups = Done (g, contacted, returned)
    ∧ Forall (λ sources, sources = []) contacted.
Proof.
  intros Hoff [t Ht].
  induction wakeups as [|[sched now|] wakeups (l & b & IH & Hl)]; simpl;
    rewrite Ht.
  - by exists [], false.
  - unfold ffclient.updaterTick. rewrite Hoff. simpl.
    fold (startFlagUpdaterDaemon g wakeups). rewrite IH. simpl.
    exists ([] :: l), b. split; [done|]. by constructor.
  - destruct (updaterChan (bgUpdater g)).
    + by exists [], true.
    + fold (startFlagUpdaterDaemon g wakeups). by exists l, b.
Qed.

(** *** The default instance *)

(** [Init] takes effect once: after a first call, successful or not, a
    second call returns no error and changes nothing, whatever the
    configuration it is given. *)
Theorem Init_takes_effect_once (p p1 : Package) (config1 config2 : Config)
    (sched1 sched2 : list nat) (now1 now2 : Z) (err : option error) :
  Init p config1 sched1 now1 = Done (err, p1) →
  Init p1 config2 sched2 now2 = Done (None, p1).
Proof.
  intros Hinit.
  assert (onceFF p1 = true) as Honce.
  { revert Hinit. unfold ffclient.Init.
    destruct (onceFF p) eqn:Hp; [by intros [= _ <-]|].
    destruct (ffclient.New _ _ _ _ _) as [[inst [e|]]|]; simpl;
      [| |done]; by intros [= _ <-]. }
  unfold ffclient.Init. by rewrite Honce.
Qed.

(** A failed [Init] is final until [Close]: it leaves [ff] as it was, and
    every later [Init] returns no error without building an instance; if
    there was no instance, the package-level functions panic. *)
Theorem Init_failure_is_final (p p1 : Package) (config : Config)
    (sched : list nat) (now : Z) (err : error) :
  Init p config sched now = Done (Some err, p1) →
  ff p1 = ff p
  ∧ (∀ config2 sched2 now2, Init p1 config2 sched2 now2 = Done (None, p1))
  ∧ (ff p = None →
     Package_IsOffline p1 = Panic
     ∧ Package_GetCacheRefreshDate p1 = Panic
     ∧ (∀ control, Package_SetOffline p1 control = Panic)
     ∧ (∀ sched2 now2, Package_ForceRefresh p1 sched2 now2 = Panic)
     ∧ (Package_Close p1).1 = []).
Proof.
  intros Hinit.
  assert (ff p1 = ff p ∧ onceFF p1 = true) as [Hff Honce].
  { revert Hinit. unfold ffclient.Init.
    destruct (onceFF p) eqn:Hp; [done|].
    destruct (ffclient.New _ _ _ _ _) as [[inst [e|]]|]; simpl; [|done..].
    by intros [= _ <-]. }
  split; [done|]. split.
  - intros config2 sched2 now2. unfold ffclient.Init. by rewrite Honce.
  - intros Hnone. rewrite Hnone in Hff.
    unfold Package_IsOffline, Package_GetCacheRefreshDate, Package_SetOffline,
      ffclient.Package_ForceRefresh, ffclient.Package_Close.
    by rewrite Hff.
Qed.

(** The package-level [Close] re-arms [Init]: the next [Init] builds the
    instance of its configuration and installs it as [ff]. *)
Theorem Close_rearms_Init (p : Package) (config : Config) (sched : list nat)
    (now : Z) (g : GoFeatureFlag) :
  New config sched now = Done (Some g, None) →
  Init (Package_Close p).2 config sched now
  = Done (None, {| ff := Some g; onceFF := true |}).
Proof.
  intros Hnew. unfold ffclient.Package_Close, ffclient.Init.
  destruct (ffclient.Close _ _) as [calls g0]. simpl. by rewrite Hnew.
Qed.


End more.

(** *** The theorems on concrete inputs *)

Import fixtures.

Lemma mergeFlags_disjoint_groups_witness :
  mergeFlags ([{["a" := 1]}] ++ [{["b" := 2]}])
  = mergeFlags ([{["b" := 2]}] ++ [({["a" := 1]} : gmap string Z)]).
Proof.
  apply (mergeFlags_disjoint_groups [{["a" := 1]}] [{["b" := 2]}]).
  intros flags1 flags2 H1 H2.
  apply list_elem_of_singleton in H1 as ->.
  apply list_elem_of_singleton in H2 as ->.
  by apply map_disjoint_singleton_l.
Defined.

Lemma New_errors_witness :
  New convert initFails (configOf 500000000 false false [sourceA; sourceB])
    [0; 1]%nat 7
  = Done (None,
          Some (errInitRetrievers (errorString "retriever not initialised"))).
Proof.
  apply (@New_errors Z memCache _ convert initFails
           (configOf 500000000 false false [sourceA; sourceB])
           [0; 1]%nat 7
           (errInitRetrievers (errorString "retriever not initialised"))).
  right. right. do 3 (split; [done|]).
  exists [sourceA; sourceB], (errorString "retriever not initialised").
  split; [done|]. by left.
Defined.

Lemma New_offline_is_bare_witness :
  let g := offlineInstance [sourceA; sourceB] in
  cache g = None ∧ retrieverManager g = None ∧ dataExporter g = None
  ∧ bgUpdater g = backgroundUpdater_zero
  ∧ (Close keepFields (Some g)).1 = []
  ∧ GetCacheRefreshDate g = Done 0.
Proof.
  apply (New_offline_is_bare convert keepFields initOk
           (configOf Second true false [sourceA; sourceB]) [0; 1]%nat 7
           (offlineInstance [sourceA; sourceB])).
  - done.
  - done.
Defined.

Lemma New_builds_freshInstance :
  New convert initOk (configOf Second false false [sourceA; sourceB])
      [0; 1]%nat 7
  = Done (Some freshInstance, None).
Proof. by vm_compute. Qed.

Lemma New_online_then_Close_witness :
  (Close keepFields (Some freshInstance)).1
  = [CacheClose; UpdaterClose] ++ [ExporterClose] ++ [ManagerShutdown].
Proof.
  apply (New_online_then_Close convert keepFields initOk
           (configOf Second false false [sourceA; sourceB]) [0; 1]%nat 7
           freshInstance).
  - done.
  - apply New_builds_freshInstance.
Defined.

Lemma GetPollingInterval_of_New_witness :
  1000 ≤ GetPollingInterval freshInstance
  ∧ (Second = 0 → GetPollingInterval freshInstance = 60000)
  ∧ (Second ≤ Second →
     GetPollingInterval freshInstance = Second ÷ 1000000).
Proof.
  apply (GetPollingInterval_of_New convert initOk
           (configOf Second false false [sourceA; sourceB]) [0; 1]%nat 7
           freshInstance).
  apply New_builds_freshInstance.
Defined.

Lemma ForceRefresh_false_keeps_instance_witness :
  ∃ g' contacted,
    ForceRefresh convert (liveInstance [sourceA; unreachable; sourceB])
                 [0; 1; 2]%nat 9
    = Done (false, g', contacted)
    ∧ g' = liveInstance [sourceA; unreachable; sourceB].
Proof.
  eexists _, _. split; [by vm_compute|].
  apply (ForceRefresh_false_keeps_instance convert
           (liveInstance [sourceA; unreachable; sourceB])
           (liveInstance [sourceA; unreachable; sourceB])
           [0; 1; 2]%nat 9 [0; 1; 2]%nat).
  - apply memCache_all_or_nothing.
  - by vm_compute.
Defined.

Lemma ForceRefresh_true_installs_merge_witness :
  let g := liveInstance [sourceA; sourceB] in
  ∃ (c c' : memCache) rm,
    IsOffline g = false
    ∧ cache g = Some c ∧ retrieverManager g = Some rm
    ∧ cache (SetOffline freshInstance false) = Some c'
    ∧ [0; 1]%nat = retrieved (GetRetrievers rm)
    ∧ (completes (GetRetrievers rm) [1; 0]%nat →
       (∀ t, t ∈ launch convert (FileFormat (config g)) (GetRetrievers rm) →
             Error t = None)
       ∧ cache.UpdateCache c
           (mergeFlags
              (Value <$> launch convert (FileFormat (config g))
                           (GetRetrievers rm)))
           7
         = (c', None)).
Proof.
  apply (ForceRefresh_true_installs_merge convert
           (liveInstance [sourceA; sourceB]) (SetOffline freshInstance false)
           [1; 0]%nat 7 [0; 1]%nat).
  by vm_compute.
Defined.

Lemma daemon_stops_at_stop_signal_witness :
  startFlagUpdaterDaemon convert freshInstance
    ([Tick [0; 1]%nat 8] ++ Stop :: [Tick [1; 0]%nat 9])
  = startFlagUpdaterDaemon convert freshInstance ([Tick [0; 1]%nat 8] ++ [Stop])
  ∧ ∀ g' contacted returned,
      startFlagUpdaterDaemon convert freshInstance
        ([Tick [0; 1]%nat 8] ++ [Stop])
      = Done (g', contacted, returned) →
      returned = true.
Proof.
  apply (daemon_stops_at_stop_signal convert freshInstance
           [Tick [0; 1]%nat 8] [Tick [1; 0]%nat 9]).
  by eexists.
Defined.

Lemma daemon_offline_is_idle_witness :
  ∃ contacted returned,
    startFlagUpdaterDaemon convert (SetOffline freshInstance true)
      [Tick [0; 1]%nat 8; Tick [1; 0]%nat 9]
    = Done (SetOffline freshInstance true, contacted, returned)
    ∧ Forall (λ sources, sources = []) contacted.
Proof.
  apply (daemon_offline_is_idle convert (SetOffline freshInstance true)
           [Tick [0; 1]%nat 8; Tick [1; 0]%nat 9]).
  - done.
  - by eexists.
Defined.

Lemma Init_takes_effect_once_witness :
  let p1 := {| ff := Some (offlineInstance [sourceA; sourceB]);
               onceFF := true |} in
  Init convert initOk p1 (configOf Second false false [sourceA]) [0]%nat 9
  = Done (None, p1).
Proof.
  apply (Init_takes_effect_once convert initOk emptyPackage
           {| ff := Some (offlineInstance [sourceA; sourceB]);
              onceFF := true |}
           (configOf Second true false [sourceA; sourceB])
           (configOf Second false false [sourceA])
           [0; 1]%nat [0]%nat 7 9 None).
  by vm_compute.
Defined.

Lemma Init_failure_is_final_witness :
  let p1 : Package memCache := {| ff := None; onceFF := true |} in
  ff p1 = ff emptyPackage
  ∧ (∀ config2 sched2 now2,
       Init convert initOk p1 config2 sched2 now2 = Done (None, p1))
  ∧ (ff emptyPackage = None →
     Package_IsOffline p1 = Panic
     ∧ Package_GetCacheRefreshDate p1 = Panic
     ∧ (∀ control, Package_SetOffline p1 control = Panic)
     ∧ (∀ sched2 now2, Package_ForceRefresh convert p1 sched2 now2 = Panic)
     ∧ (Package_Close keepFields p1).1 = []).
Proof.
  apply (Init_failure_is_final convert keepFields initOk emptyPackage
           {| ff := None; onceFF := true |}
           (configOf Second false false [sourceA; unreachable])
           [0; 1]%nat 7 (errRetrieveFlags (errorString "unreachable"))).
  by vm_compute.
Defined.

Lemma Close_rearms_Init_witness :
  Init convert initOk
    (Package_Close keepFields
       {| ff := Some freshInstance; onceFF := true |}).2
    (configOf Second true false [sourceA; sourceB]) [0; 1]%nat 9
  = Done (None, {| ff := Some (offlineInstance [sourceA; sourceB]);
                   onceFF := true |}).
Proof.
  apply (Close_rearms_Init convert keepFields initOk
           {| ff := Some freshInstance; onceFF := true |}
           (configOf Second true false [sourceA; sourceB]) [0; 1]%nat 9
           (offlineInstance [sourceA; sourceB])).
  done.
Defined.

End ffclient_more.

(** * Further properties of the relay-proxy API keys *)
Module relayproxy_more.
Import relayproxy relayproxy_facts.

(** On a configuration whose sets are not built yet, [APIKeyExists]
    accepts exactly the keys listed under [AuthorizedKeys.Admin], under the
    deprecated [APIKeys] or under [AuthorizedKeys.Evaluation]. *)
Theorem APIKeyExists_fresh (c : Config) (k : string) :
  adminAPIKeySet c = None →
  apiKeysSet c = None →
  (APIKeyExists c k).1 = true
  ↔ k ∈ Admin (AuthorizedKeys c) ∨ k ∈ Config_APIKeys c
    ∨ k ∈ Evaluation (AuthorizedKeys c).
Proof.
  intros Hadmin Hkeys. unfold APIKeyExists, APIKeysAdminExists.
  rewrite Hadmin. simpl.
  destruct (bool_decide (k ∈ addKeys ∅ (Admin (AuthorizedKeys c)))) eqn:Ha.
  - simpl. apply bool_decide_eq_true in Ha.
    apply elem_of_addKeys in Ha as [Ha|Ha]; [by apply elem_of_empty in Ha|].
    split; [by left|done].
  - simpl. rewrite Hkeys. apply bool_decide_eq_false in Ha.
    rewrite elem_of_addKeys, elem_of_empty in Ha.
    rewrite bool_decide_eq_true, !elem_of_addKeys, elem_of_empty. tauto.
Qed.

(** An evaluation key that is not listed as an admin key is accepted as an
    API key and refused as an admin key. *)
Theorem evaluation_key_is_not_admin (c : Config) (k : string) :
  adminAPIKeySet c = None →
  apiKeysSet c = None →
  k ∈ Evaluation (AuthorizedKeys c) ∨ k ∈ Config_APIKeys c →
  k ∉ Admin (AuthorizedKeys c) →
  (APIKeyExists c k).1 = true ∧ (APIKeysAdminExists c k).1 = false.
Proof.
  intros Hadmin Hkeys Hk Hnot. split.
  - apply APIKeyExists_fresh; [done..|]. tauto.
  - apply not_true_is_false. by rewrite APIKeysAdminExists_fresh.
Qed.

(** The answers do not depend on the calls made before: after an
    [APIKeyExists] or an [APIKeysAdminExists] for any key, both functions
    answer for every key what they answer on the first configuration. *)
Theorem APIKeyExists_stable (c : Config) (k k' : string) :
  (APIKeyExists (APIKeyExists c k').2 k).1 = (APIKeyExists c k).1
  ∧ (APIKeyExists (APIKeysAdminExists c k').2 k).1 = (APIKeyExists c k).1
  ∧ (APIKeysAdminExists (APIKeyExists c k').2 k).1
    = (APIKeysAdminExists c k).1.
Proof.
  unfold APIKeyExists, APIKeysAdminExists. simpl.
  destruct (adminAPIKeySet c) as [admins|], (apiKeysSet c) as [keys|]; simpl;
    repeat (match goal with
            | |- context [bool_decide (k' ∈ ?X)] =>
                destruct (bool_decide (k' ∈ X)) eqn:?
            end; simpl);
    repeat (match goal with
            | H : bool_decide ?P = _ |- context [bool_decide ?P] => rewrite H
            | |- context [bool_decide (k ∈ ?X)] =>
                destruct (bool_decide (k ∈ X)) eqn:?
            end; simpl);
    done.
Qed.

Lemma APIKeyExists_fresh_witness :
  (APIKeyExists fixtures.proxyConfig "legacy").1 = true
  ↔ "legacy" ∈ Admin (AuthorizedKeys fixtures.proxyConfig)
    ∨ "legacy" ∈ Config_APIKeys fixtures.proxyConfig
    ∨ "legacy" ∈ Evaluation (AuthorizedKeys fixtures.proxyConfig).
Proof. by apply (APIKeyExists_fresh fixtures.proxyConfig "legacy"). Defined.

Lemma evaluation_key_is_not_admin_witness :
  (APIKeyExists fixtures.proxyConfig "eval").1 = true
  ∧ (APIKeysAdminExists fixtures.proxyConfig "eval").1 = false.
Proof.
  apply (evaluation_key_is_not_admin fixtures.proxyConfig "eval").
  - done.
  - done.
  - left. simpl. apply list_elem_of_singleton. done.
  - simpl. rewrite list_elem_of_singleton. done.
Defined.

End relayproxy_more.

(** * Properties of the relay-proxy validation and file lookup *)
Module relayproxy_checks_facts.
Import relayproxy_checks.

Section facts.

Variables RetrieverConf ExporterConf NotifierConf : Type.
Variable RetrieverConf_IsValid : RetrieverConf → option error.
Variable ExporterConf_IsValid : ExporterConf → option error.
Variable NotifierConf_IsValid : NotifierConf → option error.
Variable Level : Type.
Variables DebugLevel InvalidLevel : Level.
Variable ParseLevel : string → error + Level.
Variable Stat : string → bool.

Local Abbreviation Config :=
  (Config RetrieverConf ExporterConf NotifierConf).
Local Abbreviation IsValid :=
  (IsValid RetrieverConf ExporterConf NotifierConf RetrieverConf_IsValid
     ExporterConf_IsValid NotifierConf_IsValid Level ParseLevel).
Local Abbreviation ZapLogLevel :=
  (@ZapLogLevel RetrieverConf ExporterConf NotifierConf Level DebugLevel
     InvalidLevel ParseLevel).
Local Abbreviation IsDebugEnabled :=
  (@IsDebugEnabled RetrieverConf ExporterConf NotifierConf).
Local Abbreviation locateAt := (locateAt Stat).
Local Abbreviation locateIn := (locateIn Stat).
Local Abbreviation locateConfigFile := (locateConfigFile Stat).

Lemma firstError_None {A : Type} (isValid : A → option error)
    (items : list A) :
  firstError isValid items = None ↔ ∀ item, item ∈ items → isValid item = None.
Proof.
  induction items as [|item items IH]; simpl.
  - split; [|done]. intros _ item Hin. by apply elem_of_nil in Hin.
  - destruct (isValid item) as [err|] eqn:Hitem.
    + split; [done|]. intros Hall. rewrite <- Hitem. apply Hall. left.
    + rewrite IH. split.
      * intros Hall x Hx. apply elem_of_cons in Hx as [->|Hx]; auto.
      * intros Hall x Hx. apply Hall. by right.
Qed.

Lemma firstError_first {A : Type} (isValid : A → option error)
    (valid : list A) (item : A) (rest : list A) (err : error) :
  (∀ x, x ∈ valid → isValid x = None) →
  isValid item = Some err →
  firstError isValid (valid ++ item :: rest) = Some err.
Proof.
  intros Hvalid Hitem. induction valid as [|x valid IH]; simpl.
  - by rewrite Hitem.
  - rewrite (Hvalid x) by left. apply IH. intros y Hy. apply Hvalid. by right.
Qed.

(** [IsValid] accepts a configuration exactly when its port is not zero,
    it has a retriever or a list of retrievers (possibly empty), every
    retriever, the exporter if any, and every notifier are valid, and its
    log level is empty or parses. *)
Theorem IsValid_accepts_iff (c : Config) :
  IsValid (Some c) = None
  ↔ ListenPort c ≠ 0
    ∧ (is_Some (Retriever c) ∨ is_Some (Retrievers c))
    ∧ (∀ r, Retriever c = Some r → RetrieverConf_IsValid r = None)
    ∧ (∀ rs r, Retrievers c = Some rs → r ∈ rs →
               RetrieverConf_IsValid r = None)
    ∧ (∀ e, Exporter c = Some e → ExporterConf_IsValid e = None)
    ∧ (∀ n, n ∈ Notifiers c → NotifierConf_IsValid n = None)
    ∧ (LogLevel c = "" ∨ ∃ level, ParseLevel (LogLevel c) = inr level).
Proof.
  unfold relayproxy_checks.IsValid. split.
  - intros Hvalid.
    destruct (Z.eqb_spec (ListenPort c) 0) as [|Hport]; [done|].
    split; [done|].
    assert (∀ rs, firstError RetrieverConf_IsValid rs = None →
                  ∀ rs' r, Some rs = Some rs' → r ∈ rs' →
                           RetrieverConf_IsValid r = None) as Hlist.
    { intros rs Hrs rs' r [= <-]. by apply firstError_None. }
    destruct (Retriever c) as [r|], (Retrievers c) as [rs|];
      simpl in Hvalid; [| | |done];
      try (destruct (RetrieverConf_IsValid r) eqn:Hr; [done|]);
      try (destruct (firstError RetrieverConf_IsValid rs) eqn:Hrs; [done|]);
      (destruct (Exporter c) as [e|]; simpl in Hvalid;
       [destruct (ExporterConf_IsValid e) eqn:He; [done|]|]);
      (destruct (firstError NotifierConf_IsValid (Notifiers c)) eqn:Hn;
       [done|]);
      (destruct (String.eqb_spec (LogLevel c) "") as [Hl|Hl];
       [|destruct (ParseLevel (LogLevel c)) as [perr|level] eqn:Hp; [done|]]);
      (split; [by (left + right)|]);
      (split; [by intros ? [= <-]|]);
      (split; [by eauto|]);
      (split; [by intros ? [= <-]|]);
      (split; [by apply firstError_None|]);
      by (left + (right; eexists)).
  - intros (Hport & Hsome & Hr & Hrs & He & Hn & Hl).
    destruct (Z.eqb_spec (ListenPort c) 0); [done|].
    assert (Retriever c ≫= RetrieverConf_IsValid = None) as ->.
    { destruct (Retriever c); simpl; [by apply Hr|done]. }
    assert (firstError RetrieverConf_IsValid (default [] (Retrievers c))
            = None) as ->.
    { apply firstError_None. intros r Hin.
      destruct (Retrievers c); simpl in Hin;
        [by eapply Hrs|by apply elem_of_nil in Hin]. }
    assert (Exporter c ≫= ExporterConf_IsValid = None) as ->.
    { destruct (Exporter c); simpl; [by apply He|done]. }
    assert (firstError NotifierConf_IsValid (Notifiers c) = None) as ->
      by by apply firstError_None.
    assert ((if String.eqb (LogLevel c) "" then None
             else match ParseLevel (LogLevel c) with
                  | inl err => Some err
                  | inr _ => None
                  end) = None) as ->.
    { destruct (String.eqb_spec (LogLevel c) ""); [done|].
      by destruct Hl as [?|[level ->]]. }
    destruct Hsome as [[r ->]|[rs ->]]; [done|]. by destruct (Retriever c).
Qed.

(** Among the retrievers of the list, [IsValid] reports the error of the
    first invalid one; the exporter, the notifiers and the log level are
    not looked at. *)
Theorem IsValid_first_invalid_retriever (c : Config)
    (valid : list RetrieverConf) (r : RetrieverConf)
    (rest : list RetrieverConf) (err : error) :
  ListenPort c ≠ 0 →
  (∀ r0, Retriever c = Some r0 → RetrieverConf_IsValid r0 = None) →
  Retrievers c = Some (valid ++ r :: rest) →
  (∀ r0, r0 ∈ valid → RetrieverConf_IsValid r0 = None) →
  RetrieverConf_IsValid r = Some err →
  IsValid (Some c) = Some err.
Proof.
  intros Hport Hsingle Hlist Hvalid Hr. unfold relayproxy_checks.IsValid.
  destruct (Z.eqb_spec (ListenPort c) 0); [done|]. rewrite Hlist. simpl.
  rewrite (firstError_first _ _ _ _ _ Hvalid Hr).
  destruct (Retriever c) as [r0|]; simpl; [|done].
  by rewrite (Hsingle r0).
Qed.

(** When debugging is enabled, by the flag or by the log level, the zap
    level is the debug level, provided zap reads "debug" as that level. *)
Theorem debug_enabled_gives_DebugLevel (c : option Config) :
  ParseLevel "debug" = inr DebugLevel →
  IsDebugEnabled c = true →
  ZapLogLevel c = DebugLevel.
Proof.
  intros Hparse. destruct c as [c|]; [|done]. simpl.
  destruct (Debug c); [done|]. rewrite orb_false_r.
  intros Heq. apply String.eqb_eq in Heq. by rewrite Heq, Hparse.
Qed.

(** For a configuration that [IsValid] accepts and that names a log level,
    [ZapLogLevel] is the debug level when the debug flag is set and
    otherwise the level that the name parses to: the fall-back to the
    invalid level is not taken. *)
Theorem valid_LogLevel_is_parsed (c : Config) :
  IsValid (Some c) = None →
  LogLevel c ≠ "" →
  ∃ level,
    ParseLevel (LogLevel c) = inr level
    ∧ ZapLogLevel (Some c) = if Debug c then DebugLevel else level.
Proof.
  intros Hvalid Hname.
  apply IsValid_accepts_iff in Hvalid
    as (_ & _ & _ & _ & _ & _ & [?|[level Hlevel]]); [done|].
  exists level. split; [done|]. simpl. by rewrite Hlevel.
Qed.

(** *** Locating the configuration file *)

Lemma locateAt_find (location : string) (extensions : list string) :
  locateAt location extensions
  = List.find Stat
      ((λ ext, location +:+ filename +:+ "." +:+ ext) <$> extensions).
Proof.
  induction extensions as [|ext rest IH]; [done|]. simpl.
  by destruct (Stat _).
Qed.

Lemma find_app {A : Type} (f : A → bool) (l1 l2 : list A) :
  List.find f (l1 ++ l2)
  = match List.find f l1 with
    | Some x => Some x
    | None => List.find f l2
    end.
Proof.
  induction l1 as [|x l1 IH]; [done|]. simpl. by destruct (f x).
Qed.

Lemma locateIn_find (locations : list string) :
  locateIn locations
  = List.find Stat
      (location ← locations;
       (λ ext, location +:+ filename +:+ "." +:+ ext) <$> supportedExtensions).
Proof.
  induction locations as [|location rest IH]; [done|].
  cbn [relayproxy_checks.locateIn mbind list_bind].
  rewrite find_app, <- locateAt_find, IH. done.
Qed.

(** Without a path, the file chosen is the first that exists among
    "goff-proxy" with the extensions yaml, toml, json and yml, looked for
    in "./", then "/goff/", then "/etc/opt/goff/". *)
Theorem locateConfigFile_default_order :
  locateConfigFile ""
  = match List.find Stat defaultCandidates with
    | Some configFile => (configFile, None)
    | None =>
        ("", Some (errorString
                     ("impossible to find config file in the default "
                      +:+ "locations [./,/goff/,/etc/opt/goff/]")))
    end.
Proof.
  unfold relayproxy_checks.locateConfigFile.
  rewrite String.eqb_refl. cbn [negb].
  rewrite locateIn_find. fold defaultCandidates.
  by destruct (List.find Stat defaultCandidates).
Qed.

(** A path that [locateConfigFile] returns without error exists; it is the
    path asked for when one was given, and one of the default paths
    otherwise. *)
Theorem locateConfigFile_found (inputFilePath configFile : string) :
  locateConfigFile inputFilePath = (configFile, None) →
  Stat configFile = true
  ∧ (inputFilePath ≠ "" → configFile = inputFilePath)
  ∧ (inputFilePath = "" → configFile ∈ defaultCandidates).
Proof.
  unfold relayproxy_checks.locateConfigFile.
  destruct (String.eqb_spec inputFilePath "") as [->|Hne]; cbn [negb].
  - rewrite locateIn_find. fold defaultCandidates.
    destruct (List.find Stat defaultCandidates) as [f|] eqn:Hfind; [|done].
    intros [= <-]. apply List.find_some in Hfind as [Hin Hstat].
    split; [done|]. split; [done|]. intros _. by apply list_elem_of_In.
  - destruct (Stat inputFilePath) eqn:Hstat; [|done].
    intros [= <-]. by repeat split.
Qed.

(** [locateConfigFile] fails exactly when the path given does not exist,
    whatever the default locations hold, or when no path was given and
    none of the default paths exists. *)
Theorem locateConfigFile_fails_iff (inputFilePath : string) :
  (locateConfigFile inputFilePath).2 ≠ None
  ↔ (inputFilePath ≠ "" ∧ Stat inputFilePath = false)
    ∨ (inputFilePath = ""
       ∧ ∀ configFile, configFile ∈ defaultCandidates →
                       Stat configFile = false).
Proof.
  unfold relayproxy_checks.locateConfigFile.
  destruct (String.eqb_spec inputFilePath "") as [->|Hne]; cbn [negb].
  - rewrite locateIn_find. fold defaultCandidates.
    destruct (List.find Stat defaultCandidates) as [f|] eqn:Hfind; simpl.
    + split; [done|]. intros [[? _]|[_ Hnone]]; [done|].
      apply List.find_some in Hfind as [Hin Hstat].
      apply list_elem_of_In in Hin. by rewrite (Hnone f Hin) in Hstat.
    + split; [|done]. intros _. right. split; [done|].
      intros f Hin. apply list_elem_of_In in Hin.
      by apply (List.find_none _ _ Hfind).
  - destruct (Stat inputFilePath) eqn:Hstat; simpl.
    + split; [done|]. by intros [[_ ?]|[? _]].
    + split; [|done]. intros _. by left.
Qed.

End facts.

(** *** The theorems on concrete inputs *)

Import fixtures.

(** The second retriever of the list has no kind; the log level, which
    does not parse, is not reached. *)
Lemma IsValid_first_invalid_retriever_witness :
  IsValid string string string (kindIsValid "retriever")
    (kindIsValid "exporter") (kindIsValid "notifier") Z parseLevel
    (Some (checkedConfig ["http"; ""; "file"] "loud"))
  = Some (errorString "invalid retriever").
Proof.
  apply (IsValid_first_invalid_retriever string string string
           (kindIsValid "retriever") (kindIsValid "exporter")
           (kindIsValid "notifier") Z parseLevel
           (checkedConfig ["http"; ""; "file"] "loud")
           ["http"] "" ["file"] (errorString "invalid retriever")).
  - done.
  - done.
  - done.
  - intros r0 Hr0. apply list_elem_of_singleton in Hr0 as ->. done.
  - done.
Defined.

Lemma debug_enabled_gives_DebugLevel_witness :
  ZapLogLevel string string string Z (-1) 6 parseLevel
    (Some (checkedConfig ["http"] "debug")) = -1.
Proof.
  apply (debug_enabled_gives_DebugLevel string string string Z (-1) 6
           parseLevel (Some (checkedConfig ["http"] "debug"))).
  - done.
  - done.
Defined.

Lemma valid_LogLevel_is_parsed_witness :
  ∃ level,
    parseLevel "warn" = inr level
    ∧ ZapLogLevel string string string Z (-1) 6 parseLevel
        (Some (checkedConfig ["http"] "warn"))
      = level.
Proof.
  apply (valid_LogLevel_is_parsed string string string
           (kindIsValid "retriever") (kindIsValid "exporter")
           (kindIsValid "notifier") Z (-1) 6 parseLevel
           (checkedConfig ["http"] "warn")).
  - done.
  - done.
Defined.

(** With "/goff/goff-proxy.yml" and "/etc/opt/goff/goff-proxy.yaml" on
    disk, the first is chosen. *)
Lemma locateConfigFile_found_witness :
  twoFiles "/goff/goff-proxy.yml" = true
  ∧ ("" ≠ "" → "/goff/goff-proxy.yml" = "")
  ∧ ("" = "" → "/goff/goff-proxy.yml" ∈ defaultCandidates).
Proof.
  apply (locateConfigFile_found twoFiles "" "/goff/goff-proxy.yml").
  done.
Defined.

End relayproxy_checks_facts.

(** * Properties of the array items loaded from the environment *)
Module relayproxy_env_facts.
Import relayproxy_env.

Lemma value_lookup_insert (m : gmap string value) (k : string) (x : value) :
  <[k := x]> m !! k = Some x.
Proof. apply lookup_insert_eq. Qed.

Lemma value_lookup_insert_ne (m : gmap string value) (k k' : string)
    (x : value) :
  k ≠ k' → <[k := x]> m !! k' = m !! k'.
Proof. apply lookup_insert_ne. Qed.

(** Where no map stands at the end of the path, the value written by
    [setPath] is read back along the same path. *)
Theorem setPath_getPath (keys : list string) (currentMap : gmap string value)
    (lastKey v : string) :
  last keys = Some lastKey →
  descends currentMap keys = false →
  getPath (setPath currentMap keys lastKey v) keys = Some (VScalar v).
Proof.
  revert currentMap. induction keys as [|key rest IH]; intros m Hlast Hdesc;
    [done|].
  destruct rest as [|key2 rest].
  - injection Hlast as ->. cbn [setPath getPath descends] in *.
    destruct (m !! lastKey) as [[text|next|items]|] eqn:Hm;
      cbn [setPath] in *; try done; by rewrite value_lookup_insert.
  - assert (last (key2 :: rest) = Some lastKey) as Hlast' by done.
    cbn [setPath getPath descends] in Hdesc |- *.
    destruct (m !! key) as [[text|next|items]|] eqn:Hm;
      rewrite value_lookup_insert; apply IH; try done;
      cbn [descends]; by rewrite lookup_empty.
Qed.

(** Where every key of the path, the last one included, names a nested
    map, the value is written inside the innermost map, under the last key
    once more; the path itself still leads to a map. *)
Theorem setPath_under_existing_map (keys : list string)
    (currentMap : gmap string value) (lastKey v : string) :
  keys ≠ [] →
  last keys = Some lastKey →
  descends currentMap keys = true →
  getPath (setPath currentMap keys lastKey v) (keys ++ [lastKey])
  = Some (VScalar v)
  ∧ ∃ entries,
      getPath (setPath currentMap keys lastKey v) keys = Some (VMap entries).
Proof.
  revert currentMap. induction keys as [|key rest IH]; intros m Hne Hlast Hdesc;
    [done|].
  cbn [descends] in Hdesc.
  destruct (m !! key) as [[text|next|items]|] eqn:Hm; try done.
  destruct rest as [|key2 rest].
  - injection Hlast as ->. cbn [setPath app getPath]. rewrite Hm.
    rewrite !value_lookup_insert. cbn [getPath]. rewrite ?value_lookup_insert.
    split; [done|]. by eexists.
  - assert (last (key2 :: rest) = Some lastKey) as Hlast' by done.
    destruct (IH next) as [Hget [entries Hmap]]; [done..|].
    cbn [setPath]. rewrite Hm.
    change ((key :: key2 :: rest) ++ [lastKey])
      with (key :: (key2 :: rest) ++ [lastKey]).
    change (getPath ?m0 (key :: (key2 :: rest) ++ [lastKey]))
      with (match m0 !! key with
            | Some (VMap nextMap) => getPath nextMap ((key2 :: rest) ++ [lastKey])
            | _ => None
            end).
    cbn [getPath]. rewrite !value_lookup_insert. split; [done|]. by exists entries.
Qed.

(** [setPath] changes the top-level map at the first key of the path
    only. *)
Lemma setPath_other_keys (keys : list string) (currentMap : gmap string value)
    (lastKey v key : string) :
  last keys = Some lastKey →
  head keys ≠ Some key →
  setPath currentMap keys lastKey v !! key = currentMap !! key.
Proof.
  destruct keys as [|first rest]; [done|]. intros Hlast Hhead.
  assert (first ≠ key) as Hne by (intros ->; by apply Hhead).
  destruct rest as [|second rest]; cbn [setPath last] in *.
  - injection Hlast as <-.
    destruct (currentMap !! first) as [[text|next|items]|];
      by rewrite value_lookup_insert_ne.
  - destruct (currentMap !! first) as [[text|next|items]|];
      by rewrite value_lookup_insert_ne.
Qed.

Section facts.

Variable Split : string → string → list string.
Variable ToLower : string → string.
Variable Atoi : string → error + Z.

Local Abbreviation loadArrayEnv := (loadArrayEnv Split ToLower Atoi).

(** Within its bounds, wrap-around arithmetic on [int] is exact. *)
Lemma int_wrap_small (z : Z) : minInt ≤ z ≤ maxInt → int_wrap z = z.
Proof.
  unfold int_wrap, minInt, maxInt, intSize. intros Hz.
  rewrite Z.mod_small; lia.
Qed.

(** For a name of at least three segments whose first names an array and
    whose second is an index that is not negative and is below the largest
    [int], and provided that the item that the array holds at the index,
    when it holds one, is a map: the item at the index, or an empty map
    when the index is past the end, receives the value along the rest of
    the path; the array grows just enough to hold the index, with empty
    maps in between; no other item changes. *)
Theorem loadArrayEnv_sets_item (s v : string)
    (configMap : gmap string value) (prefixKey position : string)
    (keys : list string) (lastKey : string) (configArray : list value)
    (index : Z) :
  ToLower <$> Split s "_" = prefixKey :: position :: keys →
  last keys = Some lastKey →
  configMap !! prefixKey = Some (VArray configArray) →
  Atoi position = inr index →
  0 ≤ index < maxInt →
  (∀ old, configArray !! Z.to_nat index = Some old → ∃ item, old = VMap item) →
  ∃ newArray,
    loadArrayEnv s v configMap = Done (None, Some (prefixKey, newArray))
    ∧ length newArray = max (length configArray) (S (Z.to_nat index))
    ∧ newArray !! Z.to_nat index
      = Some (VMap (setPath
                      match configArray !! Z.to_nat index with
                      | Some (VMap item) => item
                      | _ => ∅
                      end keys lastKey v))
    ∧ ∀ i, i ≠ Z.to_nat index →
           ((i < length configArray)%nat → newArray !! i = configArray !! i)
           ∧ ((length configArray ≤ i < Z.to_nat index)%nat →
              newArray !! i = Some (VMap ∅)).
Proof.
  intros Hpaths Hlast Harray Hatoi Hpos Hitem.
  unfold relayproxy_env.loadArrayEnv. rewrite Hpaths, Harray. simpl.
  rewrite Hatoi.
  destruct (Z.ltb_spec (Z.of_nat (length configArray) - 1) index) as [Hout|Hin].
  - simpl. rewrite drop_0, Hlast.
    assert (configArray !! Z.to_nat index = None) as Hnone
      by (apply lookup_ge_None; lia).
    rewrite Hnone.
    rewrite int_wrap_small
      by (unfold minInt, maxInt, intSize in *; lia).
    assert (Z.to_nat (index - Z.of_nat (length configArray) + 1)
            = S (Z.to_nat index - length configArray)) as -> by lia.
    rewrite length_app, length_replicate.
    destruct (Z.leb_spec 0 index) as [_|]; [|lia].
    destruct (Z.ltb_spec index
                (Z.of_nat (length configArray
                           + S (Z.to_nat index - length configArray))))
      as [_|]; [|lia].
    eexists. split; [done|].
    split; [|split].
    + rewrite length_insert, length_app, length_replicate. lia.
    + apply list_lookup_insert_eq.
      rewrite length_app, length_replicate. lia.
    + intros i Hi. rewrite list_lookup_insert_ne by done. split.
      * intros Hlt. by rewrite lookup_app_l.
      * intros [Hge Hlt]. rewrite lookup_app_r by done.
        apply lookup_replicate. split; [done|]. lia.
  - destruct (Z.ltb_spec index 0) as [|_]; [lia|].
    destruct (lookup_lt_is_Some_2 configArray (Z.to_nat index)) as [old Hold];
      [lia|].
    destruct (Hitem old Hold) as [item ->]. rewrite Hold. simpl.
    rewrite drop_0, Hlast.
    destruct (Z.leb_spec 0 index) as [_|]; [|lia].
    destruct (Z.ltb_spec index (Z.of_nat (length configArray)))
      as [_|]; [|lia].
    eexists. split; [done|]. split; [|split].
    + rewrite length_insert. apply lookup_lt_Some in Hold. lia.
    + apply list_lookup_insert_eq. by apply lookup_lt_Some in Hold.
    + intros i Hi. rewrite list_lookup_insert_ne by done. split; [done|].
      apply lookup_lt_Some in Hold. lia.
Qed.

(** A name with fewer than three segments whose first names an array
    makes [loadArrayEnv] panic, unless its index fails to parse; so does a
    negative index. *)
Theorem loadArrayEnv_panics (s v : string) (configMap : gmap string value)
    (prefixKey : string) (rest : list string) (configArray : list value) :
  ToLower <$> Split s "_" = prefixKey :: rest →
  configMap !! prefixKey = Some (VArray configArray) →
  rest = []
  ∨ (∃ position index, rest = [position] ∧ Atoi position = inr index)
  ∨ (∃ position keys index,
       rest = position :: keys ∧ Atoi position = inr index ∧ index < 0) →
  loadArrayEnv s v configMap = Panic.
Proof.
  intros Hpaths Harray Hcases.
  unfold relayproxy_env.loadArrayEnv. rewrite Hpaths, Harray.
  destruct Hcases as [->|[(position & index & -> & Hatoi)
                         |(position & keys & index & -> & Hatoi & Hneg)]];
    [done| |]; simpl; rewrite Hatoi.
  - destruct (Z.of_nat (length configArray) - 1 <? index); [done|].
    destruct (index <? 0); [done|].
    by destruct (configArray !! Z.to_nat index) as [[text|item|items]|].
  - destruct (Z.ltb_spec (Z.of_nat (length configArray) - 1) index); [lia|].
    by destruct (Z.ltb_spec index 0); [|lia].
Qed.

(** [k.Set] is called only without error, with the key of an array that
    the configuration map holds, and with an array that is not shorter. *)
Theorem loadArrayEnv_Set_call (s v : string) (configMap : gmap string value)
    (err : option error) (key : string) (newArray : list value) :
  loadArrayEnv s v configMap = Done (err, Some (key, newArray)) →
  err = None
  ∧ head (ToLower <$> Split s "_") = Some key
  ∧ ∃ configArray,
      configMap !! key = Some (VArray configArray)
      ∧ (length configArray ≤ length newArray)%nat.
Proof.
  unfold relayproxy_env.loadArrayEnv.
  destruct (ToLower <$> Split s "_") as [|prefixKey rest]; [done|].
  destruct (configMap !! prefixKey) as [[text|item|configArray]|] eqn:Hmap;
    try done.
  destruct ((prefixKey :: rest) !! 1%nat) as [position|]; [|done].
  destruct (Atoi position) as [e|index]; [done|].
  destruct (Z.of_nat (length configArray) - 1 <? index) eqn:Hout;
    cbn [run_bind].
  - destruct (last (drop 2 (prefixKey :: rest))); [|done].
    destruct (_ && _); [|done].
    intros [= <- <- <-]. repeat split; try done. exists configArray.
    split; [done|]. rewrite length_insert, length_app. lia.
  - destruct (index <? 0); [done|].
    destruct (configArray !! Z.to_nat index) as [[text|item|items]|];
      try done. cbn [run_bind].
    destruct (last (drop 2 (prefixKey :: rest))); [|done].
    destruct (_ && _); [|done].
    intros [= <- <- <-]. repeat split; try done. exists configArray.
    split; [done|]. by rewrite length_insert.
Qed.

End facts.

(** *** The theorems on concrete inputs *)

Import fixtures.

Lemma setPath_getPath_witness :
  getPath (setPath ∅ ["headers"; "authorization"] "authorization" "test")
          ["headers"; "authorization"]
  = Some (VScalar "test").
Proof.
  apply (setPath_getPath ["headers"; "authorization"] ∅ "authorization"
           "test").
  - done.
  - done.
Defined.

(** The item holds a map under "headers" and the name stops there: the
    value lands inside that map, under "headers" again. *)
Lemma setPath_under_existing_map_witness :
  getPath (setPath {["headers" := VMap ∅]} ["headers"] "headers" "x")
          (["headers"] ++ ["headers"])
  = Some (VScalar "x")
  ∧ ∃ entries,
      getPath (setPath {["headers" := VMap ∅]} ["headers"] "headers" "x")
              ["headers"]
      = Some (VMap entries).
Proof.
  apply (setPath_under_existing_map ["headers"] {["headers" := VMap ∅]}
           "headers" "x").
  - done.
  - done.
  - done.
Defined.

(** As in the test of the repository: the variable
    RETRIEVERS_2_HEADERS_AUTHORIZATION, with one retriever configured. *)
Lemma loadArrayEnv_sets_item_witness :
  ∃ newArray,
    loadArrayEnv splitOn toLower atoi "RETRIEVERS_2_HEADERS_AUTHORIZATION"
      "test1" oneRetriever
    = Done (None, Some ("retrievers"%string, newArray))
    ∧ length newArray = max 1 3
    ∧ newArray !! 2%nat
      = Some (VMap (setPath ∅ ["headers"; "authorization"] "authorization"
                            "test1"))
    ∧ ∀ i, i ≠ 2%nat →
           ((i < 1)%nat →
            newArray !! i
            = [VMap {["kind" := VScalar "http"]}] !! i)
           ∧ ((1 ≤ i < 2)%nat → newArray !! i = Some (VMap ∅)).
Proof.
  apply (loadArrayEnv_sets_item splitOn toLower atoi
           "RETRIEVERS_2_HEADERS_AUTHORIZATION" "test1" oneRetriever
           "retrievers" "2" ["headers"; "authorization"] "authorization"
           [VMap {["kind" := VScalar "http"]}] 2).
  - done.
  - done.
  - done.
  - done.
  - done.
  - intros old Hold. done.
Defined.

Lemma loadArrayEnv_panics_witness :
  loadArrayEnv splitOn toLower atoi "RETRIEVERS_0" "x" oneRetriever = Panic.
Proof.
  apply (loadArrayEnv_panics splitOn toLower atoi "RETRIEVERS_0" "x"
           oneRetriever "retrievers" ["0"%string]
           [VMap {["kind" := VScalar "http"]}]).
  - done.
  - done.
  - right. left. by exists "0"%string, 0.
Defined.

Lemma loadArrayEnv_Set_call_witness :
  None = (None : option error)
  ∧ head (toLower <$> splitOn "RETRIEVERS_0_HEADERS_TOKEN" "_")
    = Some "retrievers"%string
  ∧ ∃ configArray,
      oneRetriever !! "retrievers"%string = Some (VArray configArray)
      ∧ (length configArray
         ≤ length [VMap (setPath {["kind" := VScalar "http"]}
                           ["headers"; "token"] "token" "token")])%nat.
Proof.
  apply (loadArrayEnv_Set_call splitOn toLower atoi
           "RETRIEVERS_0_HEADERS_TOKEN" "token" oneRetriever None
           "retrievers"
           [VMap (setPath {["kind" := VScalar "http"]}
                    ["headers"; "token"] "token" "token")]).
  by vm_compute.
Defined.

(** At the largest [int] on an empty array, [blank] wraps around to the
    smallest [int]: nothing is appended and the assignment at the index
    panics. *)
Example loadArrayEnv_largest_index :
  loadArrayEnv splitOn toLower atoi "RETRIEVERS_9223372036854775807_KIND"
    "http" {["retrievers" := VArray []]}
  = Panic.
Proof. by vm_compute. Qed.

End relayproxy_env_facts.
